(** * simple_parser.js : a text-adventure command parser

    Shallow embedding of [src/simple_parser.js] and the properties of its
    grammar-matching engine.

    Conventions of the embedding.
    - A JavaScript string is the sequence of its code units; the model
      covers the code units U+0000..U+00FF, one [ascii] each.
    - [null] and [undefined] are kept apart where the source can tell them
      apart ([slot]).
    - The one mutable object that is passed around, the input [TokenList],
      is threaded explicitly: a function that moves the cursor returns the
      cursor it leaves behind.
    - A JavaScript exception is a result of its own ([Throw]). *)

From Stdlib Require Import List Bool Arith ZArith Lia Ascii String.
Import ListNotations.

Open Scope string_scope.
Open Scope list_scope.
Open Scope nat_scope.

(* ================================================================= *)
(** ** JavaScript string primitives used by the parser *)

Definition code (c : ascii) : nat := nat_of_ascii c.

(** [\s] of a regular expression and the characters removed by
    [String.prototype.trim]: WhiteSpace and LineTerminator, here
    TAB, LF, VT, FF, CR, SPACE and NO-BREAK SPACE. *)
Definition is_space (c : ascii) : bool :=
  let n := code c in
  ((9 <=? n) && (n <=? 13)) || (n =? 32) || (n =? 160).

(** [.] of a regular expression without the [s] flag: anything but a
    line terminator. *)
Definition is_line_terminator (c : ascii) : bool :=
  let n := code c in (n =? 10) || (n =? 13).

(** [[a-z]] *)
Definition is_lower_az (c : ascii) : bool :=
  let n := code c in (97 <=? n) && (n <=? 122).

Definition lower_char (c : ascii) : ascii :=
  let n := code c in
  if ((65 <=? n) && (n <=? 90))
     || ((192 <=? n) && (n <=? 222) && negb (n =? 215))
  then ascii_of_nat (n + 32) else c.

(** [String.prototype.toLowerCase] *)
Fixpoint toLowerCase (s : string) : string :=
  match s with
  | EmptyString => EmptyString
  | String c t => String (lower_char c) (toLowerCase t)
  end.

Fixpoint trimStart (s : string) : string :=
  match s with
  | EmptyString => EmptyString
  | String c t => if is_space c then trimStart t else s
  end.

Fixpoint trimEnd (s : string) : string :=
  match s with
  | EmptyString => EmptyString
  | String c t =>
      match trimEnd t with
      | EmptyString => if is_space c then EmptyString else String c EmptyString
      | t' => String c t'
      end
  end.

(** [String.prototype.trim] *)
Definition trim (s : string) : string := trimEnd (trimStart s).

(** [s.split(' ')]: always at least one piece. *)
Fixpoint split_space (s : string) : list string :=
  match s with
  | EmptyString => [EmptyString]
  | String c t =>
      if Ascii.eqb c " " then EmptyString :: split_space t
      else match split_space t with
           | w :: ws => String c w :: ws
           | [] => [String c EmptyString]
           end
  end.

(** [words.join(' ')] *)
Fixpoint join_space (ws : list string) : string :=
  match ws with
  | [] => EmptyString
  | [w] => w
  | w :: rest => (w ++ " " ++ join_space rest)%string
  end.

(** [s.replace(/\s+/g, ' ')]: a white-space character is dropped when
    another follows it, and the last one of a run becomes one space. *)
Fixpoint collapse_spaces (s : string) : string :=
  match s with
  | EmptyString => EmptyString
  | String c t =>
      if is_space c then
        match t with
        | String d _ => if is_space d then collapse_spaces t
                        else String " " (collapse_spaces t)
        | EmptyString => String " " EmptyString
        end
      else String c (collapse_spaces t)
  end.

(* ================================================================= *)
(** ** Some constants *)

Definition TT_WORD : string := ":word:".

(** [ARTICLES = 'a|an|the'], the alternatives in the order of the
    pattern. *)
Definition ARTICLES : list string := ["a"; "an"; "the"].

(* ================================================================= *)
(** ** tokenizeInputString *)

(** [strip_prefix p s] is what follows [p] in [s], when [s] starts with
    [p]. *)
Fixpoint strip_prefix (p s : string) : option string :=
  match p, s with
  | EmptyString, _ => Some s
  | String a p', String b s' =>
      if Ascii.eqb a b then strip_prefix p' s' else None
  | String _ _, EmptyString => None
  end.

(** One or more white-space characters, as many as there are ([\s+] is
    greedy): the rest of the string, or [None] when there is none. *)
Definition skip_spaces1 (s : string) : option string :=
  match s with
  | String c t => if is_space c then Some (trimStart t) else None
  | EmptyString => None
  end.

(** The alternation [(a|an|the)] followed by [\s+]: the alternatives are
    tried in order, and one that is not followed by white space is given
    up for the next. *)
Fixpoint match_alternatives (alts : list string) (s : string)
  : option string :=
  match alts with
  | [] => None
  | a :: rest =>
      match strip_prefix a s with
      | Some r =>
          match skip_spaces1 r with
          | Some r' => Some r'
          | None => match_alternatives rest s
          end
      | None => match_alternatives rest s
      end
  end.

(** A match of [articlesRegEx = /\s+(a|an|the)\s+/] that starts at the
    head of [s]: the string after the match.  The first [\s+] takes the
    whole run, a shorter one would be followed by white space, which no
    alternative accepts. *)
Definition match_article (s : string) : option string :=
  match skip_spaces1 s with
  | Some r => match_alternatives ARTICLES r
  | None => None
  end.

(** [s.replace(articlesRegEx, ' ')] with the [g] flag: matches are looked
    for from left to right, and the search resumes where the last match
    ended.  [fuel] bounds the number of positions visited. *)
Fixpoint replace_articles_from (fuel : nat) (s : string) : string :=
  match fuel with
  | O => s
  | S fuel' =>
      match s with
      | EmptyString => EmptyString
      | String c t =>
          match match_article s with
          | Some r => String " " (replace_articles_from fuel' r)
          | None => String c (replace_articles_from fuel' t)
          end
      end
  end.

Definition replace_articles (s : string) : string :=
  replace_articles_from (String.length s) s.

(** [str.trim().toLowerCase().replace(articlesRegEx, ' ')
        .replace(/\s+/g, ' ').split(' ')] *)
Definition tokenizeInputString (str : string) : list string :=
  split_space (collapse_spaces (replace_articles (toLowerCase (trim str)))).

(* ================================================================= *)
(** ** Values, results and exceptions *)

(** What a cursor hands out: an element, [null] past the end, and
    [undefined] for an index before the first element. *)
Inductive slot (A : Type) : Type :=
| Null
| Undefined
| Elem (a : A).
Arguments Null {A}.
Arguments Undefined {A}.
Arguments Elem {A} a.

(** The outcome of running a piece of JavaScript: a value, or an exception
    that unwinds to the caller. *)
Inductive completion (A : Type) : Type :=
| Normal (a : A)
| Throw (e : string).
Arguments Normal {A} a.
Arguments Throw {A} e.

Definition TypeError : string := "TypeError".

Definition bind {A B} (m : completion A) (k : A -> completion B)
  : completion B :=
  match m with
  | Normal a => k a
  | Throw e => Throw e
  end.

Notation "x <- m ;; k" := (bind m (fun x => k))
  (at level 61, m at next level, right associativity).

(** A string is truthy unless it is empty. *)
Definition truthy (s : string) : bool := negb (String.eqb s "").

(** [array.includes(w)] on an array of strings. *)
Definition includes (l : list string) (w : string) : bool :=
  existsb (String.eqb w) l.

(* ================================================================= *)
(** ** Token and TokenList *)

(** [new Token(type, value)]: a literal has type [TT_WORD] and the word as
    value, a symbol has its own name as type and a [null] value. *)
Record Token : Type := { type : string; value : option string }.

Definition Literal (word : string) : Token :=
  {| type := TT_WORD; value := Some word |}.
Definition Symbol (name : string) : Token :=
  {| type := name; value := None |}.

Record TokenList (A : Type) : Type := { tokens : list A; index : Z }.
Arguments tokens {A} _.
Arguments index {A} _.

(** [new TokenList(tokens)] *)
Definition newTokenList {A} (toks : list A) : TokenList A :=
  {| tokens := toks; index := (-1)%Z |}.

(** [this.index = i] *)
Definition set_index {A} (tl : TokenList A) (i : Z) : TokenList A :=
  {| tokens := tokens tl; index := i |}.

Definition currentToken {A} (tl : TokenList A) : slot A :=
  if (index tl <? Z.of_nat (List.length (tokens tl)))%Z then
    if (index tl <? 0)%Z then Undefined
    else match nth_error (tokens tl) (Z.to_nat (index tl)) with
         | Some a => Elem a
         | None => Undefined
         end
  else Null.

(** [this.index++; return this.currentToken()] *)
Definition nextToken {A} (tl : TokenList A) : slot A * TokenList A :=
  let tl' := set_index tl (index tl + 1)%Z in
  (currentToken tl', tl').

(** [nextToken] followed by [this.index--]. *)
Definition lookAhead {A} (tl : TokenList A) : slot A * TokenList A :=
  let (nextTok, tl') := nextToken tl in
  (nextTok, set_index tl' (index tl' - 1)%Z).

Definition is_null {A} (x : slot A) : bool :=
  match x with Null => true | _ => false end.

(* ================================================================= *)
(** ** tokenizeRule *)

(** The double quote, U+0022. *)
Definition quote : ascii := Ascii false true false false false true false false.

(** [quoted s] is [s] between double quotes, as a quoted span of a rule
    is written. *)
Definition quoted (s : string) : string :=
  String quote (s ++ String quote EmptyString)%string.

(** The lazy dot-plus of the quoted alternative once its first character
    is taken: characters that are no line terminators up to the first
    quote.  The text before the quote and the text after it. *)
Fixpoint until_quote (s : string) : option (string * string) :=
  match s with
  | EmptyString => None
  | String c t =>
      if Ascii.eqb c quote then Some (EmptyString, t)
      else if is_line_terminator c then None
      else match until_quote t with
           | Some (body, rest) => Some (String c body, rest)
           | None => None
           end
  end.

(** The quoted alternative at the head of [s] (a quote, one or more
    characters that are no line terminators, as few as possible, and a
    quote): the matched text and the rest. *)
Definition quoted_span (s : string) : option (string * string) :=
  match s with
  | String q (String d t) =>
      if Ascii.eqb q quote && negb (is_line_terminator d) then
        match until_quote t with
        | Some (body, rest) =>
            Some (String q (String d (body ++ String quote EmptyString)%string),
                  rest)
        | None => None
        end
      else None
  | _ => None
  end.

(** [\S+] at the head of [s]: the longest run of characters that are no
    white space, and the rest. *)
Fixpoint nonspace_run (s : string) : string * string :=
  match s with
  | EmptyString => (EmptyString, EmptyString)
  | String c t =>
      if is_space c then (EmptyString, s)
      else let (run, rest) := nonspace_run t in (String c run, rest)
  end.

(** All the matches of the pattern of [tokenizeRule] (the quoted
    alternative, or else [\S+]) from left to right.  [fuel] bounds the
    number of positions visited. *)
Fixpoint rule_parts_from (fuel : nat) (s : string) : list string :=
  match fuel with
  | O => []
  | S fuel' =>
      match s with
      | EmptyString => []
      | String c t =>
          match quoted_span s with
          | Some (part, rest) => part :: rule_parts_from fuel' rest
          | None =>
              if is_space c then rule_parts_from fuel' t
              else let (part, rest) := nonspace_run s in
                   part :: rule_parts_from fuel' rest
          end
      end
  end.

(** [str.match(re)] with the [g] flag is [null] when nothing matches. *)
Definition match_result (found : list string) : option (list string) :=
  match found with
  | [] => None
  | _ => Some found
  end.

(** [ruleParts], the result of [rule.match] on that pattern. *)
Definition rule_parts (rule : string) : option (list string) :=
  match_result (rule_parts_from (String.length rule) rule).

(** All the matches of [/[a-z]+/g]: the maximal runs of lower-case
    letters. *)
Fixpoint lower_runs (s : string) : list string :=
  match s with
  | EmptyString => []
  | String c t =>
      if is_lower_az c then
        match t with
        | String d _ =>
            if is_lower_az d then
              match lower_runs t with
              | w :: ws => String c w :: ws
              | [] => [String c EmptyString]
              end
            else String c EmptyString :: lower_runs t
        | EmptyString => [String c EmptyString]
        end
      else lower_runs t
  end.

(** [part.match(/[a-z]+/g)] *)
Definition part_words (part : string) : option (list string) :=
  match_result (lower_runs part).

(** The body of [for (const part of ruleParts)]: the tokens one part
    pushes.  Iterating over [null] throws. *)
Definition part_tokens (part : string) : completion (list Token) :=
  match part with
  | String c _ =>
      if Ascii.eqb c quote then
        match part_words part with
        | Some words => Normal (map Literal words)
        | None => Throw TypeError
        end
      else Normal [Symbol part]
  | EmptyString => Normal [Symbol part]
  end.

Fixpoint parts_tokens (parts : list string) : completion (list Token) :=
  match parts with
  | [] => Normal []
  | part :: rest =>
      toks <- part_tokens part ;;
      more <- parts_tokens rest ;;
      Normal (toks ++ more)
  end.

Definition tokenizeRule (rule : string) : completion (list Token) :=
  match rule_parts rule with
  | None => Normal []
  | Some ruleParts => parts_tokens ruleParts
  end.

(* ================================================================= *)
(** ** Game objects and the values handed to actions *)

Module GameObject.

(** [class GameObject]: the constructor sets [name] and nothing else, so
    [gameObject.parseName] is [undefined] for every game object. *)
Record t : Type := { name : list string }.

End GameObject.

(** [new GameObject(name)] *)
Definition newGameObject (name : list string) : GameObject.t :=
  {| GameObject.name := name |}.

(** The values that travel from the symbol parsers to the actions. *)
Inductive jsvalue : Type :=
| VNull
| VUndefined
| VObject (o : GameObject.t)
| VString (s : string).

(** The object literal [{result: ..., error: ...}] of the symbol parsers;
    [error] is [null] or a message. *)
Record ParseResult : Type := { result : jsvalue; error : option string }.

(** [!parseResult.error] *)
Definition no_error (r : ParseResult) : bool :=
  match error r with
  | None => true
  | Some e => negb (truthy e)
  end.

(** A symbol parser receives the input cursor, may move it, and answers
    with a [ParseResult]. *)
Definition parsingFunction : Type :=
  TokenList string -> ParseResult * TokenList string.

(** Fake a room for the [parseSingle] function to use. *)
Definition getGameObjectsFromCurrentRoom : list GameObject.t :=
  [ newGameObject ["old"; "rusty"; "key"];
    newGameObject ["old"; "man"];
    newGameObject ["desk"];
    newGameObject ["big"; "crate"];
    newGameObject ["small"; "crate"] ].

(* ================================================================= *)
(** ** parseSingle *)

(** The loop [while (inputTokens.currentToken())] that scores one game
    object: the score and the cursor when the loop is left.  Each round
    moves the cursor by one, [fuel] bounds the number of rounds. *)
Fixpoint score_loop (fuel : nat) (name : list string)
    (inputTokens : TokenList string) (matchScore : Z)
  : Z * TokenList string :=
  match fuel with
  | O => (matchScore, inputTokens)
  | S fuel' =>
      match currentToken inputTokens with
      | Elem w =>
          if truthy w then
            if includes name w then
              score_loop fuel' name (snd (nextToken inputTokens))
                         (matchScore + 1)%Z
            else (matchScore, inputTokens)
          else (matchScore, inputTokens)
      | _ => (matchScore, inputTokens)
      end
  end.

(** The state of the loop over the game objects. *)
Record bestState : Type := {
  bestMatch : list (GameObject.t * Z);
  bestMatchScore : Z;
  cursor : TokenList string
}.

(** The body of [for (const gameObject of gameObjects)]. *)
Definition score_object (startIndex : Z) (st : bestState)
    (gameObject : GameObject.t) : bestState :=
  let inputTokens := set_index (cursor st) startIndex in
  let matchScore := (-1)%Z in
  (* gameObject.parseName is undefined: matchScore is still -1 *)
  let '(matchScore, inputTokens) :=
    if (matchScore =? -1)%Z then
      score_loop (List.length (tokens inputTokens)) (GameObject.name gameObject)
                 inputTokens 0%Z
    else (matchScore, inputTokens) in
  if (0 <? matchScore)%Z then
    if (matchScore =? bestMatchScore st)%Z then
      {| bestMatch := bestMatch st ++ [(gameObject, index inputTokens)];
         bestMatchScore := bestMatchScore st;
         cursor := inputTokens |}
    else if (bestMatchScore st <? matchScore)%Z then
      {| bestMatch := [(gameObject, index inputTokens)];
         bestMatchScore := matchScore;
         cursor := inputTokens |}
    else {| bestMatch := bestMatch st;
            bestMatchScore := bestMatchScore st;
            cursor := inputTokens |}
  else {| bestMatch := bestMatch st;
          bestMatchScore := bestMatchScore st;
          cursor := inputTokens |}.

(** [parseSingle] over a given list of game objects. *)
Definition parseSingle_in (gameObjects : list GameObject.t)
  : parsingFunction :=
  fun inputTokens =>
    let startIndex := index inputTokens in
    let st := fold_left (score_object startIndex) gameObjects
                {| bestMatch := []; bestMatchScore := 0%Z;
                   cursor := inputTokens |} in
    if (0 <? bestMatchScore st)%Z then
      match bestMatch st with
      | [(gameObject, endIndex)] =>
          ({| result := VObject gameObject; error := None |},
           set_index (cursor st) endIndex)
      | _ =>
          ({| result := VNull; error := Some "multiple objects found" |},
           cursor st)
      end
    else ({| result := VNull; error := Some "no objects found" |},
          cursor st).

Definition parseSingle : parsingFunction :=
  parseSingle_in getGameObjectsFromCurrentRoom.

(* ================================================================= *)
(** ** parseDanceStyle *)

(** The loop [for (let i = 0; i < splitDance.length; i++)]: one round for
    each word of the dance, left early when the input is used up. *)
Fixpoint collect_words (splitDance : list string)
    (inputTokens : TokenList string) (danceWords : list string)
  : list string * TokenList string :=
  match splitDance with
  | [] => (danceWords, inputTokens)
  | _ :: rest =>
      match currentToken inputTokens with
      | Elem w =>
          if truthy w then
            collect_words rest (snd (nextToken inputTokens))
                          (danceWords ++ [w])
          else (danceWords, inputTokens)
      | _ => (danceWords, inputTokens)
      end
  end.

(** The loop [for (const dance of dances)], which returns from the
    function at the first dance that is found. *)
Fixpoint try_dances (startIndex : Z) (dances : list string)
    (inputTokens : TokenList string) : ParseResult * TokenList string :=
  match dances with
  | [] =>
      ({| result := VNull; error := Some "I don't know that dance" |},
       set_index inputTokens startIndex)
  | dance :: rest =>
      let inputTokens := set_index inputTokens startIndex in
      let '(danceWords, inputTokens) :=
        collect_words (split_space dance) inputTokens [] in
      if String.eqb (join_space danceWords) dance then
        ({| result := VString dance; error := None |}, inputTokens)
      else try_dances startIndex rest inputTokens
  end.

Definition parseDanceStyle : parsingFunction :=
  fun inputTokens =>
    try_dances (index inputTokens) ["waltz"; "tango"; "funky chicken"]
               inputTokens.

(* ================================================================= *)
(** ** The actions *)

(** An action is called with the collected parameters spread over its
    formal parameters: a formal parameter without an argument is
    [undefined], arguments in excess are ignored.  It returns a value or
    throws. *)
Definition action : Type := list jsvalue -> completion jsvalue.

Definition argument (params : list jsvalue) (i : nat) : jsvalue :=
  nth i params VUndefined.

(** [x.name.join(' ')]: reading [name] off [undefined] or [null] throws,
    and so does calling [join] on the [undefined] that a string has for
    [name]. *)
Definition name_joined (x : jsvalue) : completion string :=
  match x with
  | VObject o => Normal (join_space (GameObject.name o))
  | VString _ => Throw TypeError
  | VNull => Throw TypeError
  | VUndefined => Throw TypeError
  end.

(** The conversion to a string made by a template literal. *)
Definition to_string (x : jsvalue) : string :=
  match x with
  | VString s => s
  | VUndefined => "undefined"
  | VNull => "null"
  | VObject _ => "[object Object]"
  end.

Definition actionTake : action := fun params =>
  let object := argument params 0 in
  o <- name_joined object ;;
  Normal (VString ("You take the " ++ o)%string).

Definition actionTakeFrom : action := fun params =>
  let object := argument params 0 in
  let container := argument params 1 in
  o <- name_joined object ;;
  c <- name_joined container ;;
  Normal (VString ("You take the " ++ o ++ " from the " ++ c)%string).

Definition actionGive : action := fun params =>
  let recipient := argument params 0 in
  let object := argument params 1 in
  o <- name_joined object ;;
  r <- name_joined recipient ;;
  Normal (VString ("You give the " ++ o ++ " to the " ++ r)%string).

(** The body calls [actionGive(recipient, object)] and drops what it
    returns. *)
Definition actionGiveReversed : action := fun params =>
  let object := argument params 0 in
  let recipient := argument params 1 in
  _ <- actionGive [recipient; object] ;;
  Normal VUndefined.

Definition actionDance : action := fun _ =>
  Normal (VString "You flail around wildly. Everyone judges you.").

Definition actionDanceWithStyle : action := fun params =>
  let style := argument params 0 in
  Normal (VString ("You dance the " ++ to_string style ++ " very well")%string).

Definition actionPut : action := fun params =>
  let object := argument params 0 in
  let surface := argument params 1 in
  o <- name_joined object ;;
  s <- name_joined surface ;;
  Normal (VString ("You put the " ++ o ++ " on the " ++ s)%string).

(* ================================================================= *)
(** ** Verbs and their rules *)

Module Verb.

(** [class Verb]: [ruleActionMap] is a [Map] from rule to action, held
    here as its entries in insertion order (the keys of each map below
    are distinct). *)
Record t : Type := {
  name : list string;
  ruleActionMap : list (string * action)
}.

End Verb.

Definition newVerb (name : list string) (ruleActionMap : list (string * action))
  : Verb.t :=
  {| Verb.name := name; Verb.ruleActionMap := ruleActionMap |}.

Definition verbs : list Verb.t :=
  [ newVerb ["give"]
      [ ("single single", actionGive);
        (("single " ++ quoted "to" ++ " single")%string, actionGiveReversed) ];
    newVerb ["pick"]
      [ ((quoted "up" ++ " single")%string, actionTake);
        ((quoted "up" ++ " single " ++ quoted "on" ++ " single")%string,
         actionTakeFrom) ];
    newVerb ["dance"]
      [ ("", actionDance);
        ("dance_style", actionDanceWithStyle) ];
    newVerb ["put"; "place"]
      [ (("single " ++ quoted "on" ++ " single")%string, actionPut) ];
    newVerb ["gain"]
      [ ((quoted "possession of" ++ " single")%string, actionTake) ] ].

(** [tokenParsingFunctionMap], a [Map] from symbol to parsing function,
    as its entries. *)
Definition parsingFunctionMap : Type := list (string * parsingFunction).

Definition tokenParsingFunctionMap : parsingFunctionMap :=
  [ ("single", parseSingle);
    ("dance_style", parseDanceStyle) ].

(** [map.get(key)], with [None] where [map.has(key)] is false. *)
Fixpoint map_get {V} (m : list (string * V)) (key : string) : option V :=
  match m with
  | [] => None
  | (k, v) :: rest => if String.eqb k key then Some v else map_get rest key
  end.

(* ================================================================= *)
(** ** parse *)

(** [ruleToken.value === inputToken] *)
Definition strict_eq (v : option string) (t : slot string) : bool :=
  match v, t with
  | Some a, Elem b => String.eqb a b
  | None, Null => true
  | _, _ => false
  end.

(** The loop [while (ruleTokens.nextToken() !== null)] of one rule
    attempt: both cursors and the parameters when the loop is left, by
    its condition or by a [break].  Each round moves the rule cursor by
    one, [fuel] bounds the number of rounds.  (An [undefined] rule token
    passes the loop condition and throws at [ruleToken.type].) *)
Fixpoint walk_rule (fuel : nat) (parsers : parsingFunctionMap)
    (ruleTokens : TokenList Token) (inputTokens : TokenList string)
    (actionParameters : list jsvalue)
  : completion (TokenList Token * TokenList string * list jsvalue) :=
  match fuel with
  | O => Normal (ruleTokens, inputTokens, actionParameters)
  | S fuel' =>
      let (next, ruleTokens) := nextToken ruleTokens in
      match next with
      | Null => Normal (ruleTokens, inputTokens, actionParameters)
      | Undefined => Throw TypeError
      | Elem ruleToken =>
          let inputToken := currentToken inputTokens in
          if String.eqb (type ruleToken) TT_WORD
             && negb (strict_eq (value ruleToken) inputToken)
          then (* break *)
            Normal (ruleTokens, inputTokens, actionParameters)
          else if negb (String.eqb (type ruleToken) TT_WORD) then
            match map_get parsers (type ruleToken) with
            | Some parsingFn =>
                let (parseResult, inputTokens) := parsingFn inputTokens in
                if no_error parseResult then
                  walk_rule fuel' parsers ruleTokens inputTokens
                            (actionParameters ++ [result parseResult])
                else (* break *)
                  Normal (ruleTokens, inputTokens, actionParameters)
            | None => (* break *)
                Normal (ruleTokens, inputTokens, actionParameters)
            end
          else
            walk_rule fuel' parsers ruleTokens
                      (snd (nextToken inputTokens)) actionParameters
      end
  end.

(** The test made after the loop:
    [ruleTokens.lookAhead() === null && inputTokens.currentToken() === null]. *)
Definition both_ended (ruleTokens : TokenList Token)
    (inputTokens : TokenList string) : bool :=
  is_null (fst (lookAhead ruleTokens)) && is_null (currentToken inputTokens).

(** How one rule attempt ends: the rule is taken as matched and its
    action is called with the parameters, or the rule has failed. *)
Inductive attempt : Type :=
| Matched (actionParameters : list jsvalue)
| Failed.

(** One round of [for (const ruleAction of verb.ruleActionMap)] up to the
    test after the loop. *)
Definition attempt_rule (parsers : parsingFunctionMap)
    (inputTokens : TokenList string) (rule : string)
  : completion (attempt * TokenList string) :=
  let inputTokens := set_index inputTokens 1 in
  toks <- tokenizeRule rule ;;
  let ruleTokens := newTokenList toks in
  walked <- walk_rule (S (List.length toks)) parsers ruleTokens inputTokens [] ;;
  let '(ruleTokens, inputTokens, actionParameters) := walked in
  if both_ended ruleTokens inputTokens
  then Normal (Matched actionParameters, inputTokens)
  else Normal (Failed, inputTokens).

(** The lines written to the console that tell how the dispatch went;
    the lines about single tokens are left out. *)
Inductive event : Type :=
| VerbFound (inputVerb : string)
| TryingRule (rule : string)
| GoodRuleFound (rule : string)
| RuleFailed
| NoGoodRulesFound.

(** The state of the two nested loops: what was logged, the value
    returned from inside the loops if any, and the input cursor. *)
Definition loopState : Type :=
  (list event * option (completion jsvalue) * TokenList string)%type.

Fixpoint try_rules (parsers : parsingFunctionMap)
    (rules : list (string * action)) (inputTokens : TokenList string)
  : loopState :=
  match rules with
  | [] => ([], None, inputTokens)
  | (rule, act) :: rest =>
      match attempt_rule parsers inputTokens rule with
      | Throw e => ([TryingRule rule], Some (Throw e), inputTokens)
      | Normal (Matched actionParameters, inputTokens) =>
          ([TryingRule rule; GoodRuleFound rule],
           Some (act actionParameters), inputTokens)
      | Normal (Failed, inputTokens) =>
          let '(log, returned, inputTokens) :=
            try_rules parsers rest inputTokens in
          (TryingRule rule :: RuleFailed :: log, returned, inputTokens)
      end
  end.

(** [verb.name.includes(inputVerb)] *)
Definition verb_matches (verb : Verb.t) (inputVerb : slot string) : bool :=
  match inputVerb with
  | Elem w => includes (Verb.name verb) w
  | _ => false
  end.

Fixpoint try_verbs (parsers : parsingFunctionMap) (vs : list Verb.t)
    (inputVerb : slot string) (inputTokens : TokenList string)
  : loopState :=
  match vs with
  | [] => ([], None, inputTokens)
  | verb :: rest =>
      if verb_matches verb inputVerb then
        let found :=
          match inputVerb with Elem w => [VerbFound w] | _ => [] end in
        match try_rules parsers (Verb.ruleActionMap verb) inputTokens with
        | (log, Some returned, inputTokens) =>
            (found ++ log, Some returned, inputTokens)
        | (log, None, inputTokens) =>
            let '(log', returned, inputTokens) :=
              try_verbs parsers rest inputVerb inputTokens in
            (found ++ log ++ log', returned, inputTokens)
        end
      else try_verbs parsers rest inputVerb inputTokens
  end.

Definition notUnderstood : jsvalue := VString "I don't understand.".

(** [parse] over a given verb list and parsing-function map: the console
    log and the value returned or the exception thrown. *)
Definition parse_with (vs : list Verb.t) (parsers : parsingFunctionMap)
    (str : string) : list event * completion jsvalue :=
  let inputTokens := newTokenList (tokenizeInputString str) in
  let (inputVerb, inputTokens) := nextToken inputTokens in
  match try_verbs parsers vs inputVerb inputTokens with
  | (log, Some returned, _) => (log, returned)
  | (log, None, _) => (log ++ [NoGoodRulesFound], Normal notUnderstood)
  end.

(** The main parsing function. *)
Definition parse (str : string) : list event * completion jsvalue :=
  parse_with verbs tokenParsingFunctionMap str.

(* ================================================================= *)
(** ** Notions of the specification *)

(** *** Scores of the entity disambiguator *)

(** The input tokens from the cursor on; a cursor before the first
    element has no current token. *)
Definition remaining {A} (tl : TokenList A) : list A :=
  if (index tl <? 0)%Z then []
  else skipn (Z.to_nat (index tl)) (tokens tl).

(** The length of the run of leading words that are members of [name]. *)
Fixpoint overlap_run (name : list string) (words : list string) : nat :=
  match words with
  | [] => 0
  | w :: rest => if includes name w then S (overlap_run name rest) else 0
  end.

(** The score of a candidate at a cursor. *)
Definition overlap_score (inputTokens : TokenList string)
    (candidate : GameObject.t) : Z :=
  Z.of_nat (overlap_run (GameObject.name candidate) (remaining inputTokens)).

(** The highest score among the candidates, 0 when there is none. *)
Definition best_score (inputTokens : TokenList string)
    (candidates : list GameObject.t) : Z :=
  fold_right Z.max 0%Z (map (overlap_score inputTokens) candidates).

(** The candidates that attain the highest score, in the order of the
    list. *)
Definition best_candidates (inputTokens : TokenList string)
    (candidates : list GameObject.t) : list GameObject.t :=
  filter (fun c => (overlap_score inputTokens c
                    =? best_score inputTokens candidates)%Z) candidates.

(** The two failures of the disambiguator. *)
Definition ambiguousReference : ParseResult :=
  {| result := VNull; error := Some "multiple objects found" |}.
Definition noMatchingReference : ParseResult :=
  {| result := VNull; error := Some "no objects found" |}.

(** What the loop of [parseSingle] has found after the candidates [seen],
    from the position [start] of the words [toks]: the highest score,
    and the candidates with that score, if it is positive, each with the
    cursor position behind its run. *)
Definition found (toks : list string) (start : nat)
    (seen : list GameObject.t) (st : bestState) : Prop :=
  let sc c :=
    Z.of_nat (overlap_run (GameObject.name c) (skipn start toks)) in
  tokens (cursor st) = toks
  /\ bestMatchScore st = fold_right Z.max 0%Z (map sc seen)
  /\ bestMatch st
     = map (fun c => (c, (Z.of_nat start + sc c)%Z))
           (filter (fun c => (0 <? sc c)%Z && (sc c =? bestMatchScore st)%Z)
                   seen).

(** *** Rule patterns *)

(** A segment of a rule pattern: a quoted span of words, or a bare
    segment. *)
Inductive segment : Type :=
| QuotedSpan (words : list string)
| BareSegment (name : string).

Definition segment_text (seg : segment) : string :=
  match seg with
  | QuotedSpan words => quoted (join_space words)
  | BareSegment name => name
  end.

(** The pattern made of the segments, one space between two of them. *)
Definition pattern_of (segs : list segment) : string :=
  join_space (map segment_text segs).

Definition segment_tokens (seg : segment) : list Token :=
  match seg with
  | QuotedSpan words => map Literal words
  | BareSegment name => [Symbol name]
  end.

Fixpoint all_chars (p : ascii -> bool) (s : string) : bool :=
  match s with
  | EmptyString => true
  | String c t => p c && all_chars p t
  end.

(** A word of a quoted span: lower-case letters, at least one. *)
Definition is_word (w : string) : bool :=
  negb (String.eqb w "") && all_chars is_lower_az w.

(** A bare segment: at least one character, no white space, and no quote
    in front. *)
Definition is_bare (name : string) : bool :=
  match name with
  | EmptyString => false
  | String c _ =>
      negb (Ascii.eqb c quote) && all_chars (fun c => negb (is_space c)) name
  end.

Definition segment_ok (seg : segment) : bool :=
  match seg with
  | QuotedSpan words =>
      match words with [] => false | _ => forallb is_word words end
  | BareSegment name => is_bare name
  end.

(** The characters of a quoted span: lower-case letters and spaces. *)
Definition span_char (c : ascii) : bool := is_lower_az c || Ascii.eqb c " ".

(** *** Cursors and words *)

(** The rounds left to a cursor before it is past the end. *)
Definition rounds_left {A} (tl : TokenList A) : nat :=
  Z.to_nat (Z.of_nat (List.length (tokens tl)) - index tl).

(** A string that starts with something else than white space, and one
    that ends with something else than white space. *)
Definition starts_nonspace (s : string) : bool :=
  match s with
  | String c _ => negb (is_space c)
  | EmptyString => false
  end.

Fixpoint ends_nonspace (s : string) : bool :=
  match s with
  | EmptyString => false
  | String c EmptyString => negb (is_space c)
  | String _ t => ends_nonspace t
  end.

Definition nonempty (w : string) : Prop := w <> "".

(** *** Parsing functions and rule attempts *)

(** A parsing function that leaves the words of the input alone. *)
Definition keeps_tokens (parsingFn : parsingFunction) : Prop :=
  forall inputTokens,
    tokens (snd (parsingFn inputTokens)) = tokens inputTokens.

(** Every attempt of [rule] on the words fails, wherever the input
    cursor stands when the attempt starts. *)
Definition always_fails (words : list string) (rule : string) : Prop :=
  forall inputTokens,
    tokens inputTokens = words ->
    exists left,
      attempt_rule tokenParsingFunctionMap inputTokens rule
      = Normal (Failed, left).

(** *** Notions of the further properties *)

(** A rule token that is handed to a parsing function. *)
Definition is_symbol (t : Token) : bool := negb (String.eqb (type t) TT_WORD).

(** A parsing function that never moves the input cursor backwards. *)
Definition moves_forward (parsingFn : parsingFunction) : Prop :=
  forall inputTokens,
    (index inputTokens <= index (snd (parsingFn inputTokens)))%Z.

(** The log of rule attempts that all fail. *)
Definition failed_log (rules : list (string * action)) : list event :=
  flat_map (fun ra => [TryingRule (fst ra); RuleFailed]) rules.

(** What the loop of [parseSingle] keeps true: the cursor and the
    positions kept with the best matches are not before the start. *)
Definition not_before (startIndex : Z) (st : bestState) : Prop :=
  (startIndex <= index (cursor st))%Z
  /\ Forall (fun p => (startIndex <= snd p)%Z) (bestMatch st).

(** The failure of [parseDanceStyle]. *)
Definition unknownDance : ParseResult :=
  {| result := VNull; error := Some "I don't know that dance" |}.

(** The answer of a parsing function with the object in it replaced. *)
Definition rename_result (f : GameObject.t -> GameObject.t)
    (r : ParseResult) : ParseResult :=
  {| result := match result r with
               | VObject c => VObject (f c)
               | v => v
               end;
     error := error r |}.

(** The states of the loop of [parseSingle] over candidates and over the
    candidates renamed by [f]. *)
Definition renamed_state (f : GameObject.t -> GameObject.t)
    (st st' : bestState) : Prop :=
  bestMatchScore st' = bestMatchScore st
  /\ cursor st' = cursor st
  /\ bestMatch st' = map (fun p => (f (fst p), snd p)) (bestMatch st).

(** [v] is a game object. *)
Definition is_object (v : jsvalue) : bool :=
  match v with VObject _ => true | _ => false end.

(** The piece of JavaScript returns, it does not throw. *)
Definition returns {A} (c : completion A) : bool :=
  match c with Normal _ => true | Throw _ => false end.

(** A token as [tokenizeRule] makes them: a literal with a word of
    lower-case letters, or a symbol named after a bare segment. *)
Definition token_ok (t : Token) : bool :=
  match value t with
  | Some word => String.eqb (type t) TT_WORD && is_word word
  | None => is_bare (type t)
  end.

(** A part of a rule that has a quote in front. *)
Definition starts_with_quote (part : string) : bool :=
  match part with
  | String c _ => Ascii.eqb c quote
  | EmptyString => false
  end.

(** A character that [toLowerCase] leaves alone. *)
Definition lowered (c : ascii) : bool := Ascii.eqb (lower_char c) c.

(** A character that is no white space, or is the plain space. *)
Definition plain_space (c : ascii) : bool :=
  negb (is_space c) || Ascii.eqb c " ".

(** A character of a normalized word: no white space, and lowered. *)
Definition word_char (c : ascii) : bool := negb (is_space c) && lowered c.

(** A word as the normalizer makes them: not empty, of such characters. *)
Definition plain_word (w : string) : bool :=
  negb (String.eqb w "") && all_chars word_char w.

(** [w] is one of the [ARTICLES]. *)
Definition is_article (w : string) : bool := existsb (String.eqb w) ARTICLES.

(** What follows a word in a text of words joined by spaces: nothing, or
    a space and the words that are left. *)
Definition tail_text (ws : list string) : string :=
  match ws with
  | [] => ""
  | _ => String " " (join_space ws)
  end.

(** No match of the article pattern starts anywhere in the string. *)
Fixpoint no_article_match (s : string) : bool :=
  match s with
  | EmptyString => true
  | String _ t =>
      match match_article s with
      | None => no_article_match t
      | Some _ => false
      end
  end.

(** No word but the first and the last is an article. *)
Definition no_inner_article (ws : list string) : bool :=
  forallb (fun w => negb (is_article w)) (removelast (tl ws)).

(* ================================================================= *)
(** * Properties

    What is proved of the program:
    - the bounds of the four bounded loops are never reached;
    - the words of the normalized input are not empty, unless the input
      is blank, which gives the one empty word (C10);
    - the rule compiler on patterns written segment by segment (C7);
    - the entity disambiguator: scores, unique match, ambiguity, no
      match (C3), and the scenario of the old man and the key (C8);
    - the answer for what is not understood (C9).

    Further properties, of the code that the first ones leave out, are
    numbered X1 to X19: the cursor ([lookAhead], its moves, the words it
    runs over), the rule attempt (what a match has read, the parameters
    it hands over, the first match), the two parsing functions, the
    actions, the tokens and the exceptions of the rule compiler, and the
    normalizer (the characters of its words, case, padding, texts it
    leaves alone, the articles it removes, where it is idempotent).

    What the program does not do:
    - a rule attempt left by [break] on the last rule token, with the
      input used up, passes the test made after the loop: the action is
      called with a parameter missing, and the actions that read [name]
      throw (C1, C2, C4);
    - an article that directly follows another article is not removed,
      so that normalizing twice differs from normalizing once (C5, C6). *)

(** Splits a conjunction into its parts, and leaves equations alone. *)
Ltac conjuncts := repeat match goal with |- _ /\ _ => split end.

(** Decides a closed goal on the program by evaluation. *)
Ltac by_evaluation := vm_compute; reflexivity.

(** ** The commands of the source file *)

(** The trials listed at the end of the source file behave as their
    comments say. *)
Example trials_of_the_source :
  snd (parse "pick up old key on desk")
    = Normal (VString "You take the old rusty key from the desk")
  /\ snd (parse "give old to old") = Normal notUnderstood
  /\ snd (parse "dance")
    = Normal (VString "You flail around wildly. Everyone judges you.")
  /\ snd (parse "dance the funky chicken")
    = Normal (VString "You dance the funky chicken very well")
  /\ snd (parse "dance the ghillie callum") = Normal notUnderstood
  /\ snd (parse "pick up old key on desk on") = Normal notUnderstood
  /\ snd (parse "put crate on crate") = Normal notUnderstood
  /\ snd (parse "put small crate on big crate")
    = Normal (VString "You put the small crate on the big crate")
  /\ snd (parse "gain possession of old rusty key")
    = Normal (VString "You take the old rusty key").
Proof. conjuncts; by_evaluation. Qed.

(* ================================================================= *)
(** ** Strings *)

Lemma append_nil_r (s : string) : (s ++ "")%string = s.
Proof. induction s as [|c s IH]; simpl; [reflexivity|now rewrite IH]. Qed.

Lemma append_assoc (a b c : string) :
  ((a ++ b) ++ c)%string = (a ++ (b ++ c))%string.
Proof. induction a as [|x a IH]; simpl; [reflexivity|now rewrite IH]. Qed.

Lemma length_append (a b : string) :
  String.length (a ++ b) = String.length a + String.length b.
Proof. induction a as [|x a IH]; simpl; [reflexivity|now rewrite IH]. Qed.

Lemma all_chars_append (p : ascii -> bool) (a b : string) :
  all_chars p (a ++ b) = all_chars p a && all_chars p b.
Proof.
  induction a as [|x a IH]; simpl; [reflexivity|].
  now rewrite IH, andb_assoc.
Qed.

Lemma all_chars_weaken (p q : ascii -> bool) (s : string) :
  (forall c, p c = true -> q c = true) ->
  all_chars p s = true -> all_chars q s = true.
Proof.
  intro Hpq. induction s as [|c s IH]; simpl; [reflexivity|].
  intro H. apply andb_prop in H as [Hc Hs].
  now rewrite (Hpq c Hc), IH.
Qed.

(* ================================================================= *)
(** ** Classes of characters *)

Lemma space_not_quote (c : ascii) :
  is_space c = true -> Ascii.eqb c quote = false.
Proof.
  intro H. destruct (Ascii.eqb_spec c quote) as [->|]; [discriminate|reflexivity].
Qed.

Lemma lower_az_plain (c : ascii) :
  is_lower_az c = true ->
  Ascii.eqb c quote = false /\ is_line_terminator c = false
  /\ is_space c = false /\ Ascii.eqb c " " = false.
Proof.
  destruct c as [[] [] [] [] [] [] [] []]; intro H;
    solve [discriminate H | repeat split].
Qed.

Lemma span_char_plain (c : ascii) :
  span_char c = true ->
  Ascii.eqb c quote = false /\ is_line_terminator c = false.
Proof.
  unfold span_char. intro H. apply orb_prop in H as [H|H].
  - destruct (lower_az_plain c H) as (? & ? & _). now split.
  - apply Ascii.eqb_eq in H as ->. now split.
Qed.

(* ================================================================= *)
(** ** The bounds on the loops are never reached *)

Lemma trimStart_length (s : string) :
  String.length (trimStart s) <= String.length s.
Proof.
  induction s as [|c s IH]; simpl; [lia|].
  destruct (is_space c); simpl; lia.
Qed.

Lemma strip_prefix_length (p : string) :
  forall s r, strip_prefix p s = Some r -> String.length r <= String.length s.
Proof.
  induction p as [|a p IH]; intros s r; simpl.
  - intros [= ->]. lia.
  - destruct s as [|b s]; [discriminate|].
    destruct (Ascii.eqb a b); [|discriminate].
    intro H. apply IH in H. simpl. lia.
Qed.

Lemma skip_spaces1_length (s r : string) :
  skip_spaces1 s = Some r -> String.length r < String.length s.
Proof.
  destruct s as [|c s]; simpl; [discriminate|].
  destruct (is_space c); [|discriminate].
  intros [= <-]. pose proof (trimStart_length s). lia.
Qed.

Lemma match_alternatives_length (alts : list string) (s r : string) :
  match_alternatives alts s = Some r -> String.length r < String.length s.
Proof.
  induction alts as [|a alts IH]; simpl; [discriminate|].
  destruct (strip_prefix a s) as [r1|] eqn:E1; [|exact IH].
  destruct (skip_spaces1 r1) as [r2|] eqn:E2; [|exact IH].
  intros [= <-]. apply strip_prefix_length in E1.
  apply skip_spaces1_length in E2. lia.
Qed.

(** A match of the article pattern takes at least one character. *)
Lemma match_article_length (s r : string) :
  match_article s = Some r -> String.length r < String.length s.
Proof.
  unfold match_article.
  destruct (skip_spaces1 s) as [r1|] eqn:E1; [|discriminate].
  intro H. apply match_alternatives_length in H.
  apply skip_spaces1_length in E1. lia.
Qed.

(** [replace_articles] does not depend on the bound it gives to the
    scan. *)
Lemma replace_articles_from_enough :
  forall fuel fuel' s,
    String.length s <= fuel -> String.length s <= fuel' ->
    replace_articles_from fuel s = replace_articles_from fuel' s.
Proof.
  induction fuel as [|fuel IH]; intros fuel' s H H'.
  - destruct s; [|simpl in H; lia]. destruct fuel'; reflexivity.
  - destruct s as [|c s]; [destruct fuel'; reflexivity|].
    destruct fuel' as [|fuel']; [simpl in H'; lia|].
    cbn [replace_articles_from].
    destruct (match_article (String c s)) as [r|] eqn:E.
    + apply match_article_length in E. f_equal. apply IH; lia.
    + f_equal. simpl in H, H'. apply IH; lia.
Qed.

Lemma replace_articles_bound (s : string) (extra : nat) :
  replace_articles_from (String.length s + extra) s = replace_articles s.
Proof. apply replace_articles_from_enough; lia. Qed.

Lemma until_quote_length (s body rest : string) :
  until_quote s = Some (body, rest) -> String.length rest < String.length s.
Proof.
  revert body. induction s as [|c s IH]; intro body; simpl; [discriminate|].
  destruct (Ascii.eqb c quote); [intros [= _ <-]; lia|].
  destruct (is_line_terminator c); [discriminate|].
  destruct (until_quote s) as [[b r]|]; [|discriminate].
  intros [= _ <-]. specialize (IH b eq_refl). lia.
Qed.

Lemma quoted_span_length (s part rest : string) :
  quoted_span s = Some (part, rest) -> String.length rest < String.length s.
Proof.
  destruct s as [|q [|d t]]; simpl; try discriminate.
  destruct (Ascii.eqb q quote && negb (is_line_terminator d)); [|discriminate].
  destruct (until_quote t) as [[b r]|] eqn:E; [|discriminate].
  intros [= _ <-]. apply until_quote_length in E. lia.
Qed.

Lemma nonspace_run_length (s : string) :
  String.length (snd (nonspace_run s)) <= String.length s.
Proof.
  induction s as [|c s IH]; simpl; [lia|].
  destruct (is_space c); simpl; [lia|].
  destruct (nonspace_run s); simpl in *. lia.
Qed.

(** The parts of a rule do not depend on the bound given to the scan. *)
Lemma rule_parts_from_enough :
  forall fuel fuel' s,
    String.length s <= fuel -> String.length s <= fuel' ->
    rule_parts_from fuel s = rule_parts_from fuel' s.
Proof.
  induction fuel as [|fuel IH]; intros fuel' s H H'.
  - destruct s; [|simpl in H; lia]. destruct fuel'; reflexivity.
  - destruct s as [|c s]; [destruct fuel'; reflexivity|].
    destruct fuel' as [|fuel']; [simpl in H'; lia|].
    cbn [rule_parts_from].
    destruct (quoted_span (String c s)) as [[part rest]|] eqn:E.
    + apply quoted_span_length in E. f_equal. apply IH; lia.
    + simpl in H, H'. destruct (is_space c) eqn:Hc; [apply IH; lia|].
      pose proof (nonspace_run_length s) as Hlen.
      cbn [nonspace_run]. rewrite Hc.
      destruct (nonspace_run s) as [run rest]. simpl in Hlen.
      f_equal. apply IH; lia.
Qed.

Lemma rule_parts_bound (rule : string) (extra : nat) :
  match_result (rule_parts_from (String.length rule + extra) rule)
  = rule_parts rule.
Proof.
  unfold rule_parts. f_equal. apply rule_parts_from_enough; lia.
Qed.

Lemma currentToken_elem {A} (tl : TokenList A) (a : A) :
  currentToken tl = Elem a -> 0 < rounds_left tl.
Proof.
  unfold currentToken, rounds_left.
  destruct (Z.ltb_spec (index tl) (Z.of_nat (List.length (tokens tl))));
    [lia|discriminate].
Qed.

Lemma rounds_left_next {A} (tl : TokenList A) :
  0 < rounds_left tl ->
  rounds_left (snd (nextToken tl)) = Nat.pred (rounds_left tl).
Proof. unfold rounds_left, nextToken, set_index; simpl. lia. Qed.

(** The scoring loop does not depend on its bound, once the bound covers
    the words from the cursor to the end. *)
Lemma score_loop_enough (name : list string) :
  forall fuel fuel' inputTokens acc,
    rounds_left inputTokens <= fuel -> rounds_left inputTokens <= fuel' ->
    score_loop fuel name inputTokens acc
    = score_loop fuel' name inputTokens acc.
Proof.
  induction fuel as [|fuel IH]; intros fuel' it acc H H'.
  - destruct fuel'; [reflexivity|]. cbn [score_loop].
    destruct (currentToken it) as [| |w] eqn:E; try reflexivity.
    apply currentToken_elem in E. lia.
  - cbn [score_loop].
    destruct (currentToken it) as [| |w] eqn:E;
      try (destruct fuel'; cbn [score_loop]; [|rewrite E]; reflexivity).
    pose proof (currentToken_elem _ _ E) as Hpos.
    destruct fuel' as [|fuel']; [lia|]. cbn [score_loop]. rewrite E.
    destruct (truthy w); [|reflexivity].
    destruct (includes name w); [|reflexivity].
    apply IH; rewrite rounds_left_next; lia.
Qed.

Lemma score_loop_no_word (name : list string)
    (inputTokens : TokenList string) (acc : Z) (fuel : nat) :
  (forall w, currentToken inputTokens <> Elem w) ->
  score_loop fuel name inputTokens acc = (acc, inputTokens).
Proof.
  intro H. destruct fuel; cbn [score_loop]; [reflexivity|].
  destruct (currentToken inputTokens) as [| |w]; try reflexivity.
  now destruct (H w).
Qed.

(** The bound that [parseSingle] gives to the scoring loop is enough at
    every cursor. *)
Lemma score_loop_bound (name : list string) (inputTokens : TokenList string)
    (acc : Z) (extra : nat) :
  score_loop (List.length (tokens inputTokens) + extra) name inputTokens acc
  = score_loop (List.length (tokens inputTokens)) name inputTokens acc.
Proof.
  destruct (Z.ltb_spec (index inputTokens) 0) as [Hneg|Hpos].
  - assert (E : forall w, currentToken inputTokens <> Elem w).
    { intro w. unfold currentToken.
      destruct (Z.ltb_spec (index inputTokens)
                  (Z.of_nat (List.length (tokens inputTokens))));
        [|discriminate].
      destruct (Z.ltb_spec (index inputTokens) 0); [discriminate|lia]. }
    now rewrite !score_loop_no_word.
  - apply score_loop_enough; unfold rounds_left; lia.
Qed.

(** The loop over the rule tokens does not depend on its bound, once the
    bound covers the rule tokens from the cursor to the end. *)
Lemma walk_rule_enough (parsers : parsingFunctionMap) :
  forall fuel fuel' ruleTokens inputTokens params,
    0 < fuel -> 0 < fuel' ->
    rounds_left ruleTokens <= fuel -> rounds_left ruleTokens <= fuel' ->
    walk_rule fuel parsers ruleTokens inputTokens params
    = walk_rule fuel' parsers ruleTokens inputTokens params.
Proof.
  induction fuel as [|fuel IH]; intros fuel' rt it ps Hf Hf' H H'; [lia|].
  destruct fuel' as [|fuel']; [lia|].
  cbn [walk_rule].
  destruct (nextToken rt) as [next rt'] eqn:E.
  assert (Hnext : next = currentToken rt' /\ rt' = snd (nextToken rt)).
  { unfold nextToken in E |- *. now injection E as <- <-. }
  destruct Hnext as [Hcur Hrt'].
  destruct next as [| |ruleToken]; try reflexivity.
  symmetry in Hcur. apply currentToken_elem in Hcur.
  assert (Hleft : S (rounds_left rt') = rounds_left rt).
  { subst rt'. unfold rounds_left, nextToken, set_index in *; simpl in *. lia. }
  destruct (String.eqb (type ruleToken) TT_WORD); cbn [andb negb].
  - destruct (strict_eq _ _); cbn [negb]; [|reflexivity].
    apply IH; lia.
  - destruct (map_get parsers (type ruleToken)) as [parsingFn|];
      [|reflexivity].
    destruct (parsingFn it) as [res it'].
    destruct (no_error res); [|reflexivity].
    apply IH; lia.
Qed.

(** The bound that a rule attempt gives to its loop is enough. *)
Lemma walk_rule_bound (parsers : parsingFunctionMap) (toks : list Token)
    (inputTokens : TokenList string) (extra : nat) :
  walk_rule (S (List.length toks) + extra) parsers (newTokenList toks)
            inputTokens []
  = walk_rule (S (List.length toks)) parsers (newTokenList toks)
              inputTokens [].
Proof.
  apply walk_rule_enough; unfold rounds_left, newTokenList; simpl; lia.
Qed.

(* ================================================================= *)
(** ** The words of the normalized input are not empty *)

Lemma ends_nonspace_cons (c : ascii) (t : string) :
  ends_nonspace t = true -> ends_nonspace (String c t) = true.
Proof. destruct t; [discriminate|auto]. Qed.

Lemma ends_nonspace_tail (c : ascii) (t : string) :
  ends_nonspace (String c t) = true -> t = "" \/ ends_nonspace t = true.
Proof. destruct t; [now left|now right]. Qed.

Lemma ends_nonspace_after_space (c : ascii) (t : string) :
  is_space c = true -> ends_nonspace (String c t) = true ->
  ends_nonspace t = true.
Proof.
  intros Hc H. destruct t; [|exact H].
  simpl in H. rewrite Hc in H. discriminate.
Qed.

Lemma trimStart_starts (s : string) :
  trimStart s = "" \/ starts_nonspace (trimStart s) = true.
Proof.
  induction s as [|c s IH]; simpl; [now left|].
  destruct (is_space c) eqn:Hc; [exact IH|]. right. simpl. now rewrite Hc.
Qed.

Lemma trimEnd_ends (s : string) :
  trimEnd s = "" \/ ends_nonspace (trimEnd s) = true.
Proof.
  induction s as [|c s IH]; simpl; [now left|].
  destruct (trimEnd s) as [|d t].
  - destruct (is_space c) eqn:Hc; [now left|]. right. simpl. now rewrite Hc.
  - right. destruct IH as [IH|IH]; [discriminate|].
    now apply ends_nonspace_cons.
Qed.

Lemma trimEnd_starts (s : string) :
  starts_nonspace s = true -> starts_nonspace (trimEnd s) = true.
Proof.
  destruct s as [|c s]; simpl; [discriminate|].
  intro Hc. destruct (trimEnd s); [|exact Hc].
  apply negb_true_iff in Hc. rewrite Hc. simpl. now rewrite Hc.
Qed.

Lemma starts_nonspace_ends (s : string) :
  starts_nonspace s = true -> trimEnd s <> "".
Proof.
  intros H E. apply trimEnd_starts in H. rewrite E in H. discriminate.
Qed.

(** A trimmed string is empty, or has no white space at its ends. *)
Lemma trim_tight (s : string) :
  trim s = ""
  \/ (starts_nonspace (trim s) = true /\ ends_nonspace (trim s) = true).
Proof.
  unfold trim. destruct (trimStart_starts s) as [E|H].
  - left. now rewrite E.
  - right. split; [now apply trimEnd_starts|].
    destruct (trimEnd_ends (trimStart s)) as [E|E]; [|exact E].
    now apply starts_nonspace_ends in H.
Qed.

Lemma lower_char_space (c : ascii) : is_space (lower_char c) = is_space c.
Proof. destruct c as [[] [] [] [] [] [] [] []]; reflexivity. Qed.

Lemma toLowerCase_starts (s : string) :
  starts_nonspace (toLowerCase s) = starts_nonspace s.
Proof. destruct s; simpl; [reflexivity|now rewrite lower_char_space]. Qed.

Lemma toLowerCase_ends (s : string) :
  ends_nonspace (toLowerCase s) = ends_nonspace s.
Proof.
  induction s as [|c s IH]; [reflexivity|].
  destruct s as [|d s]; [simpl; now rewrite lower_char_space|].
  exact IH.
Qed.

Lemma trimStart_ends (s : string) :
  ends_nonspace s = true -> ends_nonspace (trimStart s) = true.
Proof.
  induction s as [|c s IH]; simpl trimStart; [auto|].
  destruct (is_space c) eqn:Hc; [|auto].
  intro H. apply IH. now apply (ends_nonspace_after_space c).
Qed.

Lemma skip_spaces1_ends (s r : string) :
  skip_spaces1 s = Some r -> ends_nonspace s = true ->
  ends_nonspace r = true.
Proof.
  destruct s as [|c s]; simpl skip_spaces1; [discriminate|].
  destruct (is_space c) eqn:Hc; [|discriminate].
  intros [= <-] H. apply trimStart_ends.
  now apply (ends_nonspace_after_space c).
Qed.

Lemma strip_prefix_ends (p : string) :
  forall s r, strip_prefix p s = Some r -> ends_nonspace s = true ->
              r = "" \/ ends_nonspace r = true.
Proof.
  induction p as [|a p IH]; intros s r; simpl strip_prefix.
  - intros [= ->]. now right.
  - destruct s as [|b s]; [discriminate|].
    destruct (Ascii.eqb a b); [|discriminate].
    intros H Hs. destruct (ends_nonspace_tail _ _ Hs) as [->|Hs'].
    + destruct p; simpl in H; [|discriminate]. injection H as <-. now left.
    + now apply (IH s).
Qed.

Lemma match_alternatives_ends (alts : list string) (s r : string) :
  match_alternatives alts s = Some r -> ends_nonspace s = true ->
  ends_nonspace r = true.
Proof.
  intros H Hs. induction alts as [|a alts IH]; simpl in H; [discriminate|].
  destruct (strip_prefix a s) as [r1|] eqn:E1; [|auto].
  destruct (skip_spaces1 r1) as [r2|] eqn:E2; [|auto].
  injection H as <-.
  destruct (strip_prefix_ends _ _ _ E1 Hs) as [->|H1]; [discriminate|].
  now apply (skip_spaces1_ends r1).
Qed.

Lemma match_article_ends (s r : string) :
  match_article s = Some r -> ends_nonspace s = true ->
  ends_nonspace r = true.
Proof.
  unfold match_article.
  destruct (skip_spaces1 s) as [r1|] eqn:E1; [|discriminate].
  intros H Hs. apply (match_alternatives_ends _ _ _ H).
  now apply (skip_spaces1_ends s).
Qed.

Lemma replace_articles_from_nil (fuel : nat) :
  replace_articles_from fuel "" = "".
Proof. destruct fuel; reflexivity. Qed.

Lemma replace_articles_from_ends :
  forall fuel s,
    ends_nonspace s = true ->
    ends_nonspace (replace_articles_from fuel s) = true.
Proof.
  induction fuel as [|fuel IH]; intros s Hs; [exact Hs|].
  destruct s as [|c s]; [discriminate|].
  cbn [replace_articles_from].
  destruct (match_article (String c s)) as [r|] eqn:E.
  - apply ends_nonspace_cons, IH. now apply (match_article_ends _ _ E).
  - destruct (ends_nonspace_tail _ _ Hs) as [->|Hs'].
    + now rewrite replace_articles_from_nil.
    + now apply ends_nonspace_cons, IH.
Qed.

Lemma replace_articles_from_starts (fuel : nat) (s : string) :
  starts_nonspace s = true ->
  starts_nonspace (replace_articles_from fuel s) = true.
Proof.
  intro Hs. destruct fuel; [exact Hs|].
  destruct s as [|c s]; [discriminate|].
  simpl in Hs. apply negb_true_iff in Hs.
  cbn [replace_articles_from]. unfold match_article, skip_spaces1.
  rewrite Hs. simpl. now rewrite Hs.
Qed.

(** Collapsing the white space of a string that does not end with white
    space and splitting it: all the words after the first are not empty,
    and the first is not empty when the string starts with something
    else than white space. *)
Lemma split_collapse_words (s : string) :
  s = "" \/ ends_nonspace s = true ->
  exists w ws,
    split_space (collapse_spaces s) = w :: ws
    /\ Forall nonempty ws
    /\ (starts_nonspace s = true -> w <> "").
Proof.
  induction s as [|c s IH]; intro Hs.
  - exists "", []. repeat split; [constructor|discriminate].
  - destruct Hs as [Hs|Hs]; [discriminate|].
    destruct (IH (ends_nonspace_tail _ _ Hs))
      as (w & ws & E & Hws & Hw).
    cbn [collapse_spaces]. destruct (is_space c) eqn:Hc.
    + pose proof (ends_nonspace_after_space c s Hc Hs) as Hs'.
      destruct s as [|d s]; [discriminate|].
      destruct (is_space d) eqn:Hd.
      * exists w, ws. repeat split; [exact E|exact Hws|].
        simpl. rewrite Hc. discriminate.
      * exists "", (w :: ws). cbn [split_space]. rewrite E.
        repeat split.
        -- constructor; [|exact Hws]. apply Hw. simpl. now rewrite Hd.
        -- simpl. rewrite Hc. discriminate.
    + assert (Hsp : Ascii.eqb c " " = false).
      { destruct (Ascii.eqb_spec c " ") as [->|]; [discriminate|reflexivity]. }
      cbn [split_space]. rewrite Hsp, E.
      exists (String c w), ws. repeat split; [exact Hws|discriminate].
Qed.

(** The normalized input is the one empty word, or words that are not
    empty. *)
Lemma tokenizeInputString_words (str : string) :
  tokenizeInputString str = [""]
  \/ Forall (fun w => w <> "") (tokenizeInputString str).
Proof.
  unfold tokenizeInputString, replace_articles.
  destruct (trim_tight str) as [-> | [Hstart Hend]]; [now left|].
  right.
  rewrite <- toLowerCase_starts in Hstart.
  rewrite <- toLowerCase_ends in Hend.
  set (s := toLowerCase (trim str)) in *.
  pose proof (replace_articles_from_starts (String.length s) s Hstart) as H1.
  pose proof (replace_articles_from_ends (String.length s) s Hend) as H2.
  destruct (split_collapse_words _ (or_intror H2)) as (w & ws & E & Hws & Hw).
  rewrite E. constructor; [now apply Hw|exact Hws].
Qed.

(** Whenever a verb is found, the words of the input are not empty. *)
Lemma found_verb_words (str : string) (verb : Verb.t) :
  In verb verbs ->
  verb_matches verb (fst (nextToken (newTokenList (tokenizeInputString str))))
  = true ->
  Forall (fun w => w <> "") (tokenizeInputString str).
Proof.
  intros Hin Hm.
  destruct (tokenizeInputString_words str) as [E|H]; [|exact H].
  rewrite E in Hm. simpl in Hin.
  repeat (destruct Hin as [<-|Hin]; [discriminate Hm|]). contradiction.
Qed.

(* ================================================================= *)
(** ** Articles that follow one another *)

(** C6. An article that comes right after another article is kept: the
    white space between the two belongs to the match that removes the
    first, and the match for the second would have to start with white
    space.  An article that ends the command is kept as well. *)
Theorem second_article_is_kept :
  tokenizeInputString "pick up the the key" = ["pick"; "up"; "the"; "key"]
  /\ tokenizeInputString "give a the key" = ["give"; "the"; "key"]
  /\ tokenizeInputString "pick up the" = ["pick"; "up"; "the"].
Proof. conjuncts; by_evaluation. Qed.

(** C5. Normalizing [take the the key] gives three words, and normalizing
    these three words again gives two: the article that the first pass
    kept is removed by the second. *)
Theorem normalize_twice_differs :
  tokenizeInputString "take the the key" = ["take"; "the"; "key"]
  /\ tokenizeInputString (join_space (tokenizeInputString "take the the key"))
     = ["take"; "key"]
  /\ tokenizeInputString (join_space (tokenizeInputString "take the the key"))
     <> tokenizeInputString "take the the key".
Proof. conjuncts; try by_evaluation. vm_compute; discriminate. Qed.

(* ================================================================= *)
(** ** The parts of a rule pattern *)

Lemma until_quote_body (body rest : string) :
  all_chars span_char body = true ->
  until_quote (body ++ String quote rest) = Some (body, rest).
Proof.
  induction body as [|c body IH]; simpl.
  - intros _. reflexivity.
  - intro H. apply andb_prop in H as [Hc Hb].
    destruct (span_char_plain c Hc) as [-> ->].
    now rewrite (IH Hb).
Qed.

Lemma word_chars (w : string) :
  is_word w = true ->
  exists c rest, w = String c rest /\ is_lower_az c = true
                 /\ all_chars is_lower_az rest = true.
Proof.
  unfold is_word. destruct w as [|c rest]; [discriminate|].
  simpl. intro H. apply andb_prop in H as [Hc Hr]. eauto.
Qed.

Lemma join_space_cons2 (w v : string) (rest : list string) :
  join_space (w :: v :: rest) = (w ++ String " " (join_space (v :: rest)))%string.
Proof. reflexivity. Qed.

Lemma join_space_span_chars (words : list string) :
  forallb is_word words = true ->
  all_chars span_char (join_space words) = true.
Proof.
  induction words as [|w [|v rest] IH]; intro H.
  - reflexivity.
  - simpl in H. rewrite andb_true_r in H.
    destruct (word_chars w H) as (c & r & -> & Hc & Hr).
    cbn [join_space all_chars]. unfold span_char at 1. rewrite Hc.
    apply (all_chars_weaken is_lower_az); [|exact Hr].
    intros x Hx. unfold span_char. now rewrite Hx.
  - rewrite join_space_cons2, all_chars_append.
    cbn [forallb] in H. apply andb_prop in H as [Hw Hrest].
    apply andb_true_intro; split.
    + destruct (word_chars w Hw) as (c & r & -> & Hc & Hr).
      cbn [all_chars]. unfold span_char at 1. rewrite Hc.
      apply (all_chars_weaken is_lower_az); [|exact Hr].
      intros x Hx. unfold span_char. now rewrite Hx.
    + cbn [all_chars]. rewrite (IH Hrest). reflexivity.
Qed.

Lemma join_space_head (w : string) (rest : list string) :
  is_word w = true ->
  exists c tail, join_space (w :: rest) = String c tail
                 /\ is_lower_az c = true.
Proof.
  intro Hw. destruct (word_chars w Hw) as (c & r & -> & Hc & _).
  destruct rest as [|v rest]; [now exists c, r|].
  rewrite join_space_cons2. simpl. eauto.
Qed.

(** A quoted span of words is one match of the quoted alternative. *)
Lemma quoted_span_words (words : list string) (rest : string) :
  words <> [] -> forallb is_word words = true ->
  quoted_span (quoted (join_space words) ++ rest)
  = Some (quoted (join_space words), rest).
Proof.
  intros Hne Hwords.
  pose proof (join_space_span_chars words Hwords) as Hspan.
  destruct words as [|w more]; [contradiction|].
  cbn [forallb] in Hwords. apply andb_prop in Hwords as [Hw _].
  destruct (join_space_head w more Hw) as (c & tail & E & Hc).
  rewrite E in Hspan |- *. cbn [all_chars] in Hspan.
  apply andb_prop in Hspan as [_ Htail].
  unfold quoted. cbn [String.append quoted_span].
  rewrite Ascii.eqb_refl.
  destruct (lower_az_plain c Hc) as (_ & -> & _). cbn [negb andb].
  rewrite append_assoc. cbn [String.append].
  rewrite (until_quote_body tail rest Htail). reflexivity.
Qed.

Lemma nonspace_run_bare (name rest : string) :
  all_chars (fun c => negb (is_space c)) name = true ->
  rest = "" \/ (exists r, rest = String " " r) ->
  nonspace_run (name ++ rest) = (name, rest).
Proof.
  intros Hname Hrest. induction name as [|c name IH]; cbn [String.append].
  - destruct Hrest as [->|[r ->]]; reflexivity.
  - cbn [all_chars] in Hname. apply andb_prop in Hname as [Hc Hn].
    cbn [nonspace_run]. apply negb_true_iff in Hc. rewrite Hc.
    now rewrite (IH Hn).
Qed.

Lemma quoted_span_no_quote (c : ascii) (s : string) :
  Ascii.eqb c quote = false -> quoted_span (String c s) = None.
Proof. intro H. destruct s; simpl; [reflexivity|now rewrite H]. Qed.

(** One segment in front of the text is one part. *)
Lemma rule_parts_segment (seg : segment) (rest : string) (fuel : nat) :
  segment_ok seg = true ->
  rest = "" \/ (exists r, rest = String " " r) ->
  rule_parts_from (S fuel) (segment_text seg ++ rest)
  = segment_text seg :: rule_parts_from fuel rest.
Proof.
  intros Hok Hrest. destruct seg as [words|name]; cbn [segment_text segment_ok] in *.
  - assert (Hne : words <> []) by (destruct words; [discriminate|discriminate]).
    assert (Hw : forallb is_word words = true) by (destruct words; [discriminate|exact Hok]).
    cbn [rule_parts_from]. unfold quoted at 1. cbn [String.append].
    change (String quote ((join_space words ++ String quote "") ++ rest))%string
      with (quoted (join_space words) ++ rest)%string.
    now rewrite (quoted_span_words words rest Hne Hw).
  - unfold is_bare in Hok. destruct name as [|c name]; [discriminate|].
    apply andb_prop in Hok as [Hq Hchars]. apply negb_true_iff in Hq.
    cbn [rule_parts_from String.append].
    rewrite (quoted_span_no_quote _ _ Hq).
    pose proof Hchars as Hc. cbn [all_chars] in Hc.
    apply andb_prop in Hc as [Hc _]. apply negb_true_iff in Hc. rewrite Hc.
    change (String c (name ++ rest))%string with (String c name ++ rest)%string.
    now rewrite (nonspace_run_bare _ _ Hchars Hrest).
Qed.

Lemma rule_parts_space (rest : string) (fuel : nat) :
  rule_parts_from (S fuel) (String " " rest) = rule_parts_from fuel rest.
Proof.
  cbn [rule_parts_from]. rewrite quoted_span_no_quote by reflexivity.
  reflexivity.
Qed.

Lemma segment_text_length (seg : segment) :
  segment_ok seg = true -> 1 <= String.length (segment_text seg).
Proof.
  destruct seg as [words|name]; cbn [segment_text segment_ok]; intro H.
  - unfold quoted. simpl. lia.
  - destruct name; [discriminate|simpl; lia].
Qed.

Lemma pattern_of_cons2 (seg seg' : segment) (more : list segment) :
  pattern_of (seg :: seg' :: more)
  = (segment_text seg ++ String " " (pattern_of (seg' :: more)))%string.
Proof. reflexivity. Qed.

(** The parts of a pattern are the texts of its segments. *)
Lemma rule_parts_pattern (segs : list segment) :
  forallb segment_ok segs = true ->
  forall fuel,
    String.length (pattern_of segs) <= fuel ->
    rule_parts_from fuel (pattern_of segs) = map segment_text segs.
Proof.
  induction segs as [|seg [|seg' more] IH]; intros Hok fuel Hfuel.
  - destruct fuel; reflexivity.
  - cbn [forallb] in Hok. rewrite andb_true_r in Hok.
    pose proof (segment_text_length seg Hok) as Hlen.
    unfold pattern_of in *. cbn [map join_space] in *.
    destruct fuel as [|fuel]; [lia|].
    rewrite <- (append_nil_r (segment_text seg)) at 1.
    rewrite rule_parts_segment by auto.
    destruct fuel; reflexivity.
  - cbn [forallb] in Hok. apply andb_prop in Hok as [Hseg Hmore].
    pose proof (segment_text_length seg Hseg) as Hlen.
    rewrite pattern_of_cons2 in *.
    rewrite length_append in Hfuel. cbn [String.length] in Hfuel.
    destruct fuel as [|[|fuel]]; try lia.
    rewrite rule_parts_segment by eauto.
    rewrite rule_parts_space.
    rewrite (IH Hmore) by lia. reflexivity.
Qed.

(* ================================================================= *)
(** ** The tokens of a part *)

Lemma lower_runs_skip (c : ascii) (s : string) :
  is_lower_az c = false -> lower_runs (String c s) = lower_runs s.
Proof. intro H. cbn [lower_runs]. now rewrite H. Qed.

(** A word in front of a character that is no lower-case letter is one
    run. *)
Lemma lower_runs_word (w rest : string) :
  w <> "" -> all_chars is_lower_az w = true ->
  rest = "" \/ (exists c r, rest = String c r /\ is_lower_az c = false) ->
  lower_runs (w ++ rest) = w :: lower_runs rest.
Proof.
  intros Hne Hw Hrest. induction w as [|c w IH]; [contradiction|].
  cbn [all_chars] in Hw. apply andb_prop in Hw as [Hc Hw].
  destruct w as [|d w].
  - cbn [String.append lower_runs]. rewrite Hc.
    destruct Hrest as [->|(x & r & -> & Hx)]; [reflexivity|].
    now rewrite Hx.
  - assert (Hd : is_lower_az d = true).
    { cbn [all_chars] in Hw. now apply andb_prop in Hw as [Hd _]. }
    change (String c (String d w) ++ rest)%string
      with (String c (String d w ++ rest))%string.
    cbn [lower_runs]. rewrite Hc.
    change (String d w ++ rest)%string
      with (String d (w ++ rest))%string at 1.
    cbv iota. rewrite Hd.
    rewrite IH by (discriminate || assumption). reflexivity.
Qed.

Lemma lower_runs_words (words : list string) :
  forallb is_word words = true ->
  lower_runs (join_space words ++ String quote "") = words.
Proof.
  induction words as [|w [|v more] IH]; intro H.
  - reflexivity.
  - cbn [forallb] in H. rewrite andb_true_r in H.
    unfold is_word in H. apply andb_prop in H as [Hne Hw].
    cbn [join_space]. rewrite lower_runs_word.
    + reflexivity.
    + intros ->. discriminate.
    + exact Hw.
    + right. now exists quote, "".
  - cbn [forallb] in H. apply andb_prop in H as [Hword Hmore].
    unfold is_word in Hword. apply andb_prop in Hword as [Hne Hw].
    rewrite join_space_cons2, append_assoc. cbn [String.append].
    rewrite lower_runs_word.
    + rewrite lower_runs_skip by reflexivity. now rewrite (IH Hmore).
    + intros ->. discriminate.
    + exact Hw.
    + right. now exists " "%char, (join_space (v :: more) ++ String quote "")%string.
Qed.

Lemma part_tokens_segment (seg : segment) :
  segment_ok seg = true ->
  part_tokens (segment_text seg) = Normal (segment_tokens seg).
Proof.
  destruct seg as [words|name]; cbn [segment_ok segment_text segment_tokens];
    intro Hok.
  - assert (Hw : forallb is_word words = true)
      by (destruct words; [discriminate|exact Hok]).
    unfold quoted, part_tokens. rewrite Ascii.eqb_refl.
    unfold part_words. rewrite lower_runs_skip by reflexivity.
    rewrite (lower_runs_words words Hw).
    destruct words; [discriminate|reflexivity].
  - unfold is_bare in Hok. destruct name as [|c name]; [discriminate|].
    apply andb_prop in Hok as [Hq _]. apply negb_true_iff in Hq.
    unfold part_tokens. now rewrite Hq.
Qed.

Lemma parts_tokens_segments (segs : list segment) :
  forallb segment_ok segs = true ->
  parts_tokens (map segment_text segs)
  = Normal (flat_map segment_tokens segs).
Proof.
  induction segs as [|seg segs IH]; intro H; [reflexivity|].
  cbn [forallb] in H. apply andb_prop in H as [Hseg Hsegs].
  cbn [map parts_tokens flat_map].
  rewrite (part_tokens_segment seg Hseg), (IH Hsegs). reflexivity.
Qed.

(** The compiled rule of a pattern written segment by segment. *)
Lemma tokenizeRule_pattern (segs : list segment) :
  forallb segment_ok segs = true ->
  tokenizeRule (pattern_of segs) = Normal (flat_map segment_tokens segs).
Proof.
  intro Hok. unfold tokenizeRule, rule_parts.
  rewrite (rule_parts_pattern segs Hok) by lia.
  destruct segs as [|seg segs]; [reflexivity|].
  cbn [map match_result]. apply (parts_tokens_segments (seg :: segs) Hok).
Qed.

Lemma rule_parts_blank :
  forall fuel s, all_chars is_space s = true -> rule_parts_from fuel s = [].
Proof.
  induction fuel as [|fuel IH]; intros s H; [reflexivity|].
  destruct s as [|c s]; [reflexivity|].
  cbn [all_chars] in H. apply andb_prop in H as [Hc Hs].
  cbn [rule_parts_from].
  rewrite (quoted_span_no_quote _ _ (space_not_quote c Hc)), Hc.
  now apply IH.
Qed.

Lemma tokenizeRule_blank (rule : string) :
  all_chars is_space rule = true -> tokenizeRule rule = Normal [].
Proof.
  intro H. unfold tokenizeRule, rule_parts.
  now rewrite (rule_parts_blank _ _ H).
Qed.

(** C7. The rule compiler maps the empty pattern, and any pattern of
    white space alone, to the empty token sequence; it maps the pattern
    made of the quoted word up, the segment single, the quoted word on
    and the segment single to the literal up, the symbol single, the
    literal on and the symbol single; and for any pattern written as
    segments with one space between them, each word of a quoted span
    gives one literal and each bare segment gives one symbol of its
    name. *)
Theorem tokenizeRule_compiles :
  tokenizeRule "" = Normal []
  /\ (forall rule, all_chars is_space rule = true ->
        tokenizeRule rule = Normal [])
  /\ tokenizeRule (quoted "up" ++ " single " ++ quoted "on" ++ " single")
     = Normal [Literal "up"; Symbol "single"; Literal "on"; Symbol "single"]
  /\ (forall segs, forallb segment_ok segs = true ->
        tokenizeRule (pattern_of segs)
        = Normal (flat_map segment_tokens segs)).
Proof.
  conjuncts.
  - reflexivity.
  - exact tokenizeRule_blank.
  - by_evaluation.
  - exact tokenizeRule_pattern.
Qed.

(** A pattern of three spaces, and the rule of [gain] written as a
    quoted span of two words and a bare segment. *)
Lemma tokenizeRule_compiles_witness :
  tokenizeRule "   " = Normal []
  /\ tokenizeRule (quoted "possession of" ++ " single")
     = Normal [Literal "possession"; Literal "of"; Symbol "single"].
Proof.
  split.
  - apply (proj1 (proj2 tokenizeRule_compiles) "   "). reflexivity.
  - apply (proj2 (proj2 (proj2 tokenizeRule_compiles))
             [QuotedSpan ["possession"; "of"]; BareSegment "single"]).
    reflexivity.
Defined.

(* ================================================================= *)
(** ** Cursors *)

Lemma skipn_nth_error {A} (l : list A) (n : nat) (a : A) :
  nth_error l n = Some a -> skipn n l = a :: skipn (S n) l.
Proof.
  revert n; induction l as [|x l IH]; intros [|n] H; simpl in *;
    try discriminate.
  - now inversion H.
  - now apply IH.
Qed.

Lemma currentToken_inside {A} (toks : list A) (n : nat) (a : A) :
  nth_error toks n = Some a ->
  currentToken {| tokens := toks; index := Z.of_nat n |} = Elem a.
Proof.
  intro H. unfold currentToken; simpl.
  assert (n < List.length toks) by (apply nth_error_Some; congruence).
  destruct (Z.ltb_spec (Z.of_nat n) (Z.of_nat (List.length toks))); [|lia].
  destruct (Z.ltb_spec (Z.of_nat n) 0); [lia|].
  now rewrite Nat2Z.id, H.
Qed.

Lemma currentToken_past_end {A} (toks : list A) (i : Z) :
  (Z.of_nat (List.length toks) <= i)%Z ->
  currentToken {| tokens := toks; index := i |} = Null.
Proof.
  intro H. unfold currentToken; simpl.
  destruct (Z.ltb_spec i (Z.of_nat (List.length toks))); [lia|reflexivity].
Qed.

Lemma truthy_nonempty (w : string) : w <> "" -> truthy w = true.
Proof.
  intro H. unfold truthy. destruct (String.eqb_spec w ""); [contradiction|reflexivity].
Qed.

(* ================================================================= *)
(** ** The entity disambiguator *)

Section Disambiguator.

Variable toks : list string.
Hypothesis words : Forall (fun w => w <> "") toks.

Local Abbreviation at_ n := {| tokens := toks; index := Z.of_nat n |}.

(** The scoring loop counts the run of member words from the cursor and
    leaves the cursor behind that run, whenever it is given rounds
    enough to reach the end of the input. *)
Lemma score_loop_run (name : list string) :
  forall fuel n acc,
    List.length toks - n <= fuel ->
    score_loop fuel name (at_ n) acc
    = ((acc + Z.of_nat (overlap_run name (skipn n toks)))%Z,
       at_ (n + overlap_run name (skipn n toks))).
Proof.
  induction fuel as [|fuel IH]; intros n acc Hfuel.
  - rewrite skipn_all2 by lia. simpl.
    now rewrite Z.add_0_r, Nat.add_0_r.
  - cbn [score_loop]. destruct (nth_error toks n) as [w|] eqn:Hn.
    + rewrite (currentToken_inside _ _ _ Hn).
      rewrite (skipn_nth_error _ _ _ Hn). cbn [overlap_run].
      rewrite truthy_nonempty.
      2:{ rewrite Forall_forall in words. apply words.
          eapply nth_error_In; eauto. }
      destruct (includes name w).
      * unfold nextToken, set_index; cbn [tokens index snd].
        replace (Z.of_nat n + 1)%Z with (Z.of_nat (S n)) by lia.
        rewrite IH by lia.
        f_equal; [lia|]. f_equal. lia.
      * now rewrite Z.add_0_r, Nat.add_0_r.
    + apply nth_error_None in Hn.
      rewrite currentToken_past_end by lia.
      rewrite skipn_all2 by lia. cbn [overlap_run].
      now rewrite Z.add_0_r, Nat.add_0_r.
Qed.

(** *** The loop over the candidates *)

Variable start : nat.

Local Abbreviation sc c :=
  (Z.of_nat (overlap_run (GameObject.name c) (skipn start toks))).

Lemma score_object_eq (st : bestState) (c : GameObject.t) :
  tokens (cursor st) = toks ->
  score_object (Z.of_nat start) st c
  = let ending := at_ (start + overlap_run (GameObject.name c) (skipn start toks)) in
    if (0 <? sc c)%Z then
      if (sc c =? bestMatchScore st)%Z then
        {| bestMatch := bestMatch st ++ [(c, index ending)];
           bestMatchScore := bestMatchScore st; cursor := ending |}
      else if (bestMatchScore st <? sc c)%Z then
        {| bestMatch := [(c, index ending)];
           bestMatchScore := sc c; cursor := ending |}
      else {| bestMatch := bestMatch st;
              bestMatchScore := bestMatchScore st; cursor := ending |}
    else {| bestMatch := bestMatch st;
            bestMatchScore := bestMatchScore st; cursor := ending |}.
Proof.
  intro Htoks. unfold score_object, set_index.
  cbn [tokens index]. rewrite Htoks.
  change (-1 =? -1)%Z with true. cbv iota.
  rewrite score_loop_run by lia. rewrite Z.add_0_l. reflexivity.
Qed.

Lemma max_snoc (l : list Z) (x : Z) :
  (0 <= x)%Z ->
  fold_right Z.max 0%Z (l ++ [x]) = Z.max (fold_right Z.max 0%Z l) x.
Proof.
  intro Hx. induction l as [|y l IH]; simpl; [lia|]. rewrite IH. lia.
Qed.

Lemma max_nonneg (l : list Z) : (0 <= fold_right Z.max 0%Z l)%Z.
Proof. induction l; simpl; lia. Qed.

Lemma max_bound (l : list Z) (x : Z) :
  In x l -> (x <= fold_right Z.max 0%Z l)%Z.
Proof.
  induction l as [|y l IH]; simpl; [contradiction|].
  intros [->|H]; [lia|]. specialize (IH H). lia.
Qed.

Lemma filter_none {A} (p : A -> bool) (l : list A) :
  (forall a, In a l -> p a = false) -> filter p l = [].
Proof.
  induction l as [|a l IH]; simpl; intro H; [reflexivity|].
  rewrite (H a) by now left. apply IH. intros; apply H; now right.
Qed.

Lemma found_step (seen : list GameObject.t) (st : bestState)
    (c : GameObject.t) :
  found toks start seen st ->
  found toks start (seen ++ [c]) (score_object (Z.of_nat start) st c).
Proof.
  unfold found. cbv zeta. intros (Htoks & Hbest & Hmatch).
  rewrite (score_object_eq _ _ Htoks). cbv zeta.
  assert (Hpos := max_nonneg (map (fun c => sc c) seen)).
  rewrite map_app, filter_app. cbn [map filter].
  rewrite max_snoc by lia. rewrite <- Hbest.
  destruct (Z.ltb_spec 0 (sc c)) as [Hc|Hc].
  - destruct (Z.eqb_spec (sc c) (bestMatchScore st)) as [He|He].
    + cbn [bestMatch bestMatchScore cursor tokens index].
      repeat split; [lia|].
      rewrite Hmatch, map_app.
      destruct (Z.ltb_spec 0 (sc c)); [|lia].
      destruct (Z.eqb_spec (sc c) (bestMatchScore st)); [|lia].
      cbn [andb map]. do 3 f_equal. lia.
    + destruct (Z.ltb_spec (bestMatchScore st) (sc c)) as [Hlt|Hge];
        cbn [bestMatch bestMatchScore cursor tokens index].
      * repeat split; [lia|].
        rewrite filter_none.
        2:{ intros a Ha.
            assert (sc a <= bestMatchScore st)%Z.
            { rewrite Hbest. apply max_bound.
              apply (in_map (fun c => sc c)) in Ha. exact Ha. }
            destruct (Z.eqb_spec (sc a) (sc c)); [lia|].
            apply andb_false_r. }
        destruct (Z.ltb_spec 0 (sc c)); [|lia].
        rewrite Z.eqb_refl. cbn [andb map app]. do 3 f_equal. lia.
      * repeat split; [lia|].
        rewrite Hmatch.
        destruct (Z.eqb_spec (sc c) (bestMatchScore st)); [lia|].
        rewrite andb_false_r, app_nil_r. reflexivity.
  - cbn [bestMatch bestMatchScore cursor tokens index].
    repeat split; [lia|].
    rewrite Hmatch.
    destruct (Z.ltb_spec 0 (sc c)); [lia|].
    cbn [andb]. rewrite app_nil_r. reflexivity.
Qed.

Lemma found_all (cs seen : list GameObject.t) (st : bestState) :
  found toks start seen st ->
  found toks start (seen ++ cs)
        (fold_left (score_object (Z.of_nat start)) cs st).
Proof.
  revert seen st. induction cs as [|c cs IH]; intros seen st H; simpl.
  - now rewrite app_nil_r.
  - replace (seen ++ c :: cs) with ((seen ++ [c]) ++ cs)
      by now rewrite <- app_assoc.
    apply IH, found_step, H.
Qed.

End Disambiguator.

(** Before the first element the scoring loop finds no word, and the
    candidates leave the best match as it was. *)
Lemma score_object_before_start (startIndex : Z) (st : bestState)
    (c : GameObject.t) :
  (startIndex < 0)%Z ->
  score_object startIndex st c
  = {| bestMatch := bestMatch st; bestMatchScore := bestMatchScore st;
       cursor := set_index (cursor st) startIndex |}.
Proof.
  intro Hneg. unfold score_object.
  change (-1 =? -1)%Z with true. cbv iota.
  rewrite score_loop_no_word; [reflexivity|].
  intro w. unfold currentToken, set_index; cbn [tokens index].
  destruct (startIndex <? _)%Z; [|discriminate].
  destruct (Z.ltb_spec startIndex 0); [discriminate|lia].
Qed.

Lemma fold_score_object_before_start (startIndex : Z) :
  (startIndex < 0)%Z ->
  forall cs st,
    bestMatchScore (fold_left (score_object startIndex) cs st)
    = bestMatchScore st.
Proof.
  intro Hneg. induction cs as [|c cs IH]; intro st; simpl; [reflexivity|].
  rewrite IH, score_object_before_start by exact Hneg. reflexivity.
Qed.

Lemma overlap_score_before_start (inputTokens : TokenList string)
    (c : GameObject.t) :
  (index inputTokens < 0)%Z -> overlap_score inputTokens c = 0%Z.
Proof.
  intro Hneg. unfold overlap_score, remaining.
  destruct (Z.ltb_spec (index inputTokens) 0); [reflexivity|lia].
Qed.

Lemma best_score_before_start (inputTokens : TokenList string)
    (candidates : list GameObject.t) :
  (index inputTokens < 0)%Z -> best_score inputTokens candidates = 0%Z.
Proof.
  intro Hneg. unfold best_score.
  induction candidates as [|c cs IH]; simpl; [reflexivity|].
  rewrite IH, overlap_score_before_start by exact Hneg. reflexivity.
Qed.

(** C3. From any cursor position on non-empty words and for any list of
    candidates, [parseSingle] scores every candidate by the run of input
    words from that position that are members of its name: run from the
    starting position, the scoring loop counts that run and leaves the
    cursor behind it.  When one candidate alone has the highest score and
    that score is positive, it is returned and the cursor is moved past
    its run; when several share a positive highest score, the answer is
    the failure for an ambiguous reference, with no object; when no
    candidate scores above 0, the answer is the failure for no matching
    reference. *)
Theorem parseSingle_disambiguates (candidates : list GameObject.t)
    (inputTokens : TokenList string) :
  Forall (fun w => w <> "") (tokens inputTokens) ->
  let best := best_score inputTokens candidates in
  let winners := best_candidates inputTokens candidates in
  (forall c,
      score_loop (List.length (tokens inputTokens)) (GameObject.name c)
                 inputTokens 0%Z
      = (overlap_score inputTokens c,
         set_index inputTokens
           (index inputTokens + overlap_score inputTokens c)%Z))
  /\ (forall c, (0 < best)%Z -> winners = [c] ->
      parseSingle_in candidates inputTokens
      = ({| result := VObject c; error := None |},
         set_index inputTokens
           (index inputTokens + overlap_score inputTokens c)%Z))
  /\ ((0 < best)%Z -> 2 <= List.length winners ->
      fst (parseSingle_in candidates inputTokens) = ambiguousReference)
  /\ (best = 0%Z ->
      fst (parseSingle_in candidates inputTokens) = noMatchingReference).
Proof.
  intro Hwords.
  destruct (Z.ltb_spec (index inputTokens) 0) as [Hneg|Hi].
  - (* before the first element: every score is 0 *)
    pose proof (best_score_before_start inputTokens candidates Hneg) as Hbest.
    cbv zeta. rewrite Hbest. conjuncts; try lia.
    + intro c. rewrite overlap_score_before_start by exact Hneg.
      rewrite Z.add_0_r. rewrite score_loop_no_word.
      * destruct inputTokens; reflexivity.
      * intro w. unfold currentToken.
        destruct (index inputTokens <? _)%Z; [|discriminate].
        destruct (Z.ltb_spec (index inputTokens) 0); [discriminate|lia].
    + intros _. unfold parseSingle_in.
      rewrite fold_score_object_before_start by exact Hneg. reflexivity.
  - destruct inputTokens as [toks i]. cbn [index tokens] in *.
    destruct (Z_of_nat_complete i Hi) as [n ->]. clear Hi.
    unfold best_candidates, best_score, overlap_score, remaining, set_index.
    cbn [index tokens].
    destruct (Z.ltb_spec (Z.of_nat n) 0); [lia|]. rewrite Nat2Z.id.
    set (sc := fun c => Z.of_nat (overlap_run (GameObject.name c) (skipn n toks))).
    set (best := fold_right Z.max 0%Z (map sc candidates)).
    set (winners := filter (fun c => (sc c =? best)%Z) candidates).
    cbv zeta.
    assert (Hfound :
      found toks n candidates
        (fold_left (score_object (Z.of_nat n)) candidates
           {| bestMatch := []; bestMatchScore := 0%Z;
              cursor := {| tokens := toks; index := Z.of_nat n |} |})).
    { apply (found_all toks Hwords n candidates []).
      unfold found; cbn. auto. }
    unfold found in Hfound. cbv zeta in Hfound. fold sc in Hfound.
    destruct Hfound as (Htoks & Hbest & Hmatch). fold best in Hbest.
    unfold parseSingle_in. cbn [index].
    set (st := fold_left _ _ _) in *.
    rewrite Hbest in Hmatch |- *.
    assert (Hwin : (0 < best)%Z ->
              filter (fun c => (0 <? sc c)%Z && (sc c =? best)%Z) candidates
              = winners).
    { intro Hpos. apply filter_ext. intro c.
      destruct (Z.eqb_spec (sc c) best) as [->|]; [|apply andb_false_r].
      destruct (Z.ltb_spec 0 best); [reflexivity|lia]. }
    assert (Hpairs : (0 < best)%Z ->
              bestMatch st = map (fun c => (c, (Z.of_nat n + sc c)%Z)) winners).
    { intro Hpos. rewrite <- (Hwin Hpos). exact Hmatch. }
    conjuncts.
    + intro c. rewrite (score_loop_run toks Hwords) by lia.
      unfold sc. f_equal. f_equal. lia.
    + intros c Hpos Hone. change (winners = [c]) in Hone.
      destruct (Z.ltb_spec 0 best); [|lia].
      rewrite (Hpairs Hpos), Hone. cbn [map]. unfold set_index. rewrite Htoks.
      reflexivity.
    + intros Hpos Hlen. change (2 <= List.length winners) in Hlen.
      destruct (Z.ltb_spec 0 best); [|lia].
      rewrite (Hpairs Hpos).
      destruct winners as [|a [|b rest]]; cbn in Hlen; try lia.
      reflexivity.
    + intro Hzero. rewrite Hzero. reflexivity.
Qed.

(** The words after the verb of [give old man key] in the room of the
    source: the old man wins with a run of two words. *)
Lemma parseSingle_disambiguates_witness :
  parseSingle {| tokens := ["give"; "old"; "man"; "key"]; index := 1 |}
  = ({| result := VObject (newGameObject ["old"; "man"]); error := None |},
     {| tokens := ["give"; "old"; "man"; "key"]; index := 3 |}).
Proof.
  refine (proj1 (proj2 (parseSingle_disambiguates getGameObjectsFromCurrentRoom
                   {| tokens := ["give"; "old"; "man"; "key"]; index := 1 |}
                   _))
                (newGameObject ["old"; "man"]) _ _).
  - repeat constructor; discriminate.
  - vm_compute; reflexivity.
  - vm_compute; reflexivity.
Defined.

(** C8. In the room of the source, which holds the old rusty key and the
    old man, the words [old man key] after the verb are matched by the
    rule [single single]: the first symbol scores 2 for the old man and
    1 for the old rusty key and moves the cursor past two words, the
    second scores 1 for the old rusty key and 0 for the old man on the
    word that is left, and the rule matches with the old man and the old
    rusty key as parameters, in that order. *)
Theorem give_old_man_key :
  let key := newGameObject ["old"; "rusty"; "key"] in
  let man := newGameObject ["old"; "man"] in
  let words := tokenizeInputString "give old man key" in
  let afterVerb := {| tokens := words; index := 1 |} in
  let afterMan := {| tokens := words; index := 3 |} in
  let afterKey := {| tokens := words; index := 4 |} in
  In key getGameObjectsFromCurrentRoom
  /\ In man getGameObjectsFromCurrentRoom
  /\ words = ["give"; "old"; "man"; "key"]
  /\ overlap_score afterVerb man = 2%Z
  /\ overlap_score afterVerb key = 1%Z
  /\ parseSingle afterVerb
     = ({| result := VObject man; error := None |}, afterMan)
  /\ overlap_score afterMan key = 1%Z
  /\ overlap_score afterMan man = 0%Z
  /\ parseSingle afterMan
     = ({| result := VObject key; error := None |}, afterKey)
  /\ attempt_rule tokenParsingFunctionMap afterVerb "single single"
     = Normal (Matched [VObject man; VObject key], afterKey)
  /\ snd (parse "give old man key")
     = Normal (VString "You give the old rusty key to the old man").
Proof.
  cbv zeta. conjuncts; try by_evaluation.
  - left; reflexivity.
  - right; left; reflexivity.
Qed.

(* ================================================================= *)
(** ** A rule attempt that stops at its last token *)

(** The test after the loop holds when the input cursor is past the last
    word and the rule cursor is on the last rule token or past it: a
    rule cursor that a [break] has left on the last token passes the
    test like one that has run off the end. *)
Lemma both_ended_iff (ruleTokens : TokenList Token)
    (inputTokens : TokenList string) :
  both_ended ruleTokens inputTokens = true
  <-> (Z.of_nat (List.length (tokens ruleTokens)) <= index ruleTokens + 1
       /\ Z.of_nat (List.length (tokens inputTokens)) <= index inputTokens)%Z.
Proof.
  unfold both_ended, lookAhead, nextToken, currentToken, set_index.
  cbn [fst tokens index].
  destruct (Z.ltb_spec (index ruleTokens + 1)
              (Z.of_nat (List.length (tokens ruleTokens)))) as [Hr|Hr];
    destruct (Z.ltb_spec (index inputTokens)
                (Z.of_nat (List.length (tokens inputTokens)))) as [Hi|Hi];
    cbn [is_null andb].
  - split; [|lia].
    destruct (index ruleTokens + 1 <? 0)%Z; [discriminate|].
    destruct (nth_error _ _); discriminate.
  - split; [|lia].
    destruct (index ruleTokens + 1 <? 0)%Z; [discriminate|].
    destruct (nth_error _ _); discriminate.
  - split; [|lia].
    destruct (index inputTokens <? 0)%Z; [discriminate|].
    destruct (nth_error _ _); discriminate.
  - split; [lia|reflexivity].
Qed.

(** C1. The command [pick up] against the rule of [pick] that asks for
    the word up and a single: the symbol is the last token of the rule,
    [parseSingle] fails on it because the input is used up, the loop is
    left by its [break], and the test after the loop holds all the same,
    so the rule is taken as matched and [actionTake] is called, without
    parameters. *)
Theorem pick_up_failed_symbol_calls_action :
  let rule := (quoted "up" ++ " single")%string in
  let words := tokenizeInputString "pick up" in
  let afterVerb := {| tokens := words; index := 1 |} in
  let atEnd := {| tokens := words; index := 2 |} in
  tokenizeRule rule = Normal [Literal "up"; Symbol "single"]
  /\ parseSingle atEnd = (noMatchingReference, atEnd)
  /\ no_error noMatchingReference = false
  /\ attempt_rule tokenParsingFunctionMap afterVerb rule
     = Normal (Matched [], atEnd)
  /\ parse "pick up"
     = ([VerbFound "pick"; TryingRule rule; GoodRuleFound rule],
        actionTake []).
Proof. cbv zeta. conjuncts; by_evaluation. Qed.

(** C2. [parse] throws on the commands [pick up] and
    [gain possession of]: the rule stops at its last token with the
    input used up, is taken as matched, and the action reads [name] off
    a parameter that is [undefined]. *)
Theorem parse_throws_on_missing_object :
  snd (parse "pick up") = Throw TypeError
  /\ snd (parse "gain possession of") = Throw TypeError
  /\ snd (parse "put desk on") = Throw TypeError.
Proof. conjuncts; by_evaluation. Qed.

(** C4. The rule of [put] consumes the words [desk on desk]; on the
    words [desk on], which stop short of that, the rule cursor is left
    on the last symbol of the rule, and the rule is taken as matched
    with the one parameter found so far. *)
Theorem truncated_input_taken_as_match :
  let rule := ("single " ++ quoted "on" ++ " single")%string in
  let desk := VObject (newGameObject ["desk"]) in
  let full := {| tokens := ["put"; "desk"; "on"; "desk"]; index := 1 |} in
  let short := {| tokens := ["put"; "desk"; "on"]; index := 1 |} in
  attempt_rule tokenParsingFunctionMap full rule
  = Normal (Matched [desk; desk], set_index full 4)
  /\ attempt_rule tokenParsingFunctionMap short rule
     = Normal (Matched [desk], set_index short 3)
  /\ (exists ruleTokens,
        tokenizeRule rule = Normal (tokens ruleTokens)
        /\ walk_rule 4 tokenParsingFunctionMap
             (newTokenList (tokens ruleTokens)) short []
           = Normal (ruleTokens, set_index short 3, [desk])
        /\ currentToken ruleTokens = Elem (Symbol "single")).
Proof.
  cbv zeta. split; [by_evaluation|]. split; [by_evaluation|].
  exists {| tokens := [Symbol "single"; Literal "on"; Symbol "single"];
            index := 2 |}.
  cbn [tokens]. conjuncts; by_evaluation.
Qed.

(* ================================================================= *)
(** ** The input words are never changed *)

Lemma score_loop_tokens (name : list string) :
  forall fuel inputTokens acc,
    tokens (snd (score_loop fuel name inputTokens acc)) = tokens inputTokens.
Proof.
  induction fuel as [|fuel IH]; intros inputTokens acc; cbn [score_loop];
    [reflexivity|].
  destruct (currentToken inputTokens) as [| |w]; try reflexivity.
  destruct (truthy w); [|reflexivity].
  destruct (includes name w); [|reflexivity].
  rewrite IH. reflexivity.
Qed.

Lemma score_object_tokens (startIndex : Z) (st : bestState)
    (c : GameObject.t) :
  tokens (cursor (score_object startIndex st c)) = tokens (cursor st).
Proof.
  unfold score_object. change (-1 =? -1)%Z with true. cbv iota.
  destruct (score_loop _ _ _ _) as [m it] eqn:E.
  assert (Ht : tokens it = tokens (cursor st)).
  { change it with (snd (m, it)). rewrite <- E, score_loop_tokens.
    reflexivity. }
  destruct (0 <? m)%Z; [|exact Ht].
  destruct (m =? bestMatchScore st)%Z; [exact Ht|].
  destruct (bestMatchScore st <? m)%Z; exact Ht.
Qed.

Lemma parseSingle_in_tokens (candidates : list GameObject.t)
    (inputTokens : TokenList string) :
  tokens (snd (parseSingle_in candidates inputTokens)) = tokens inputTokens.
Proof.
  unfold parseSingle_in.
  set (st0 := {| bestMatch := []; bestMatchScore := 0%Z;
                 cursor := inputTokens |}).
  assert (H : forall cs st,
             tokens (cursor (fold_left (score_object (index inputTokens)) cs st))
             = tokens (cursor st)).
  { induction cs as [|c cs IH]; intro st; simpl; [reflexivity|].
    rewrite IH. apply score_object_tokens. }
  specialize (H candidates st0).
  destruct (0 <? _)%Z; [|exact H].
  destruct (bestMatch _) as [|[o e] [|]]; exact H.
Qed.

Lemma collect_words_tokens :
  forall splitDance inputTokens danceWords,
    tokens (snd (collect_words splitDance inputTokens danceWords))
    = tokens inputTokens.
Proof.
  induction splitDance as [|d rest IH]; intros inputTokens danceWords;
    cbn [collect_words]; [reflexivity|].
  destruct (currentToken inputTokens) as [| |w]; try reflexivity.
  destruct (truthy w); [|reflexivity].
  rewrite IH. reflexivity.
Qed.

Lemma try_dances_tokens (startIndex : Z) :
  forall dances inputTokens,
    tokens (snd (try_dances startIndex dances inputTokens))
    = tokens inputTokens.
Proof.
  induction dances as [|dance rest IH]; intro inputTokens;
    cbn [try_dances]; [reflexivity|].
  destruct (collect_words _ _ _) as [ws it] eqn:E.
  assert (Ht : tokens it = tokens inputTokens).
  { change it with (snd (ws, it)). rewrite <- E, collect_words_tokens.
    reflexivity. }
  destruct (String.eqb _ _); [exact Ht|].
  rewrite IH. exact Ht.
Qed.

Lemma tokenParsingFunctionMap_keeps_tokens (symbol : string)
    (parsingFn : parsingFunction) :
  map_get tokenParsingFunctionMap symbol = Some parsingFn ->
  keeps_tokens parsingFn.
Proof.
  unfold tokenParsingFunctionMap; cbn [map_get].
  destruct (String.eqb "single" symbol).
  - intros [= <-] it. apply parseSingle_in_tokens.
  - destruct (String.eqb "dance_style" symbol); [|discriminate].
    intros [= <-] it. apply try_dances_tokens.
Qed.

Lemma walk_rule_tokens (parsers : parsingFunctionMap) :
  (forall symbol parsingFn,
      map_get parsers symbol = Some parsingFn -> keeps_tokens parsingFn) ->
  forall fuel ruleTokens inputTokens params ruleTokens' inputTokens' params',
    walk_rule fuel parsers ruleTokens inputTokens params
    = Normal (ruleTokens', inputTokens', params') ->
    tokens inputTokens' = tokens inputTokens.
Proof.
  intro Hkeep.
  induction fuel as [|fuel IH];
    intros ruleTokens inputTokens params ruleTokens' inputTokens' params';
    cbn [walk_rule].
  - intros [= _ <- _]. reflexivity.
  - destruct (nextToken ruleTokens) as [next rt].
    destruct next as [| |ruleToken]; [|discriminate|].
    + intros [= _ <- _]. reflexivity.
    + destruct (String.eqb (type ruleToken) TT_WORD); cbn [andb negb].
      * destruct (strict_eq _ _); cbn [negb].
        -- intro H. apply IH in H. exact H.
        -- intros [= _ <- _]. reflexivity.
      * destruct (map_get parsers (type ruleToken)) as [parsingFn|] eqn:Hget.
        -- destruct (parsingFn inputTokens) as [res it] eqn:E.
           assert (Ht : tokens it = tokens inputTokens).
           { change it with (snd (res, it)). rewrite <- E.
             apply (Hkeep _ _ Hget). }
           destruct (no_error res).
           ++ intro H. apply IH in H. congruence.
           ++ intros [= _ <- _]. exact Ht.
        -- intros [= _ <- _]. reflexivity.
Qed.

Lemma attempt_rule_tokens (inputTokens left : TokenList string)
    (rule : string) (a : attempt) :
  attempt_rule tokenParsingFunctionMap inputTokens rule = Normal (a, left) ->
  tokens left = tokens inputTokens.
Proof.
  unfold attempt_rule, bind.
  destruct (tokenizeRule rule) as [toks|]; [|discriminate].
  destruct (walk_rule _ _ _ _ _) as [[[rt it] ps]|] eqn:E; [|discriminate].
  apply (walk_rule_tokens _ tokenParsingFunctionMap_keeps_tokens) in E.
  cbn [set_index tokens] in E.
  destruct (both_ended rt it); intros [= _ <-]; exact E.
Qed.

(* ================================================================= *)
(** ** The answer for what is not understood *)

Lemma try_verbs_no_verb (parsers : parsingFunctionMap)
    (inputVerb : slot string) (inputTokens : TokenList string) :
  forall vs,
    (forall verb, In verb vs -> verb_matches verb inputVerb = false) ->
    try_verbs parsers vs inputVerb inputTokens = ([], None, inputTokens).
Proof.
  induction vs as [|verb rest IH]; intro H; cbn [try_verbs]; [reflexivity|].
  rewrite (H verb) by now left.
  apply IH. intros v Hv. apply H. now right.
Qed.

Section AllRulesFail.

Variable words : list string.

Local Abbreviation fails := (always_fails words).

Lemma try_rules_all_failed :
  forall rules inputTokens,
    tokens inputTokens = words ->
    (forall rule act, In (rule, act) rules -> fails rule) ->
    exists log left,
      try_rules tokenParsingFunctionMap rules inputTokens = (log, None, left)
      /\ tokens left = words.
Proof.
  induction rules as [|[rule act] rest IH]; intros inputTokens Hw Hfail;
    cbn [try_rules].
  - now exists [], inputTokens.
  - destruct (Hfail rule act (or_introl eq_refl) inputTokens Hw)
      as [left Hleft].
    rewrite Hleft.
    assert (Hw' : tokens left = words).
    { rewrite (attempt_rule_tokens _ _ _ _ Hleft). exact Hw. }
    destruct (IH left Hw') as (log & left' & E & Hw'').
    { intros r a Hin. apply (Hfail r a). now right. }
    rewrite E. now exists (TryingRule rule :: RuleFailed :: log), left'.
Qed.

Lemma try_verbs_all_failed (inputVerb : slot string) :
  forall vs inputTokens,
    tokens inputTokens = words ->
    (forall verb rule act,
        In verb vs -> verb_matches verb inputVerb = true ->
        In (rule, act) (Verb.ruleActionMap verb) -> fails rule) ->
    exists log left,
      try_verbs tokenParsingFunctionMap vs inputVerb inputTokens
      = (log, None, left)
      /\ tokens left = words.
Proof.
  induction vs as [|verb rest IH]; intros inputTokens Hw Hfail;
    cbn [try_verbs].
  - now exists [], inputTokens.
  - destruct (verb_matches verb inputVerb) eqn:Hm.
    + destruct (try_rules_all_failed (Verb.ruleActionMap verb) inputTokens Hw)
        as (log & left & E & Hw').
      { intros r a Hin. apply (Hfail verb r a); auto. now left. }
      rewrite E.
      destruct (IH left Hw') as (log' & left' & E' & Hw'').
      { intros v r a Hv. apply Hfail. now right. }
      rewrite E'. eauto.
    + apply IH; [exact Hw|].
      intros v r a Hv. apply Hfail. now right.
Qed.

End AllRulesFail.

(** C9. When the first word of the normalized input is a name of no verb,
    [parse] tries no rule and returns the answer for what it does not
    understand; and when every rule of every verb that has the first
    word among its names fails on the input, [parse] returns that same
    answer. *)
Theorem parse_not_understood (str : string) :
  let words := tokenizeInputString str in
  let inputVerb := fst (nextToken (newTokenList words)) in
  ((forall verb, In verb verbs -> verb_matches verb inputVerb = false) ->
   parse str = ([NoGoodRulesFound], Normal notUnderstood))
  /\ ((forall verb rule act inputTokens,
          In verb verbs -> verb_matches verb inputVerb = true ->
          In (rule, act) (Verb.ruleActionMap verb) ->
          tokens inputTokens = words ->
          exists left,
            attempt_rule tokenParsingFunctionMap inputTokens rule
            = Normal (Failed, left)) ->
      snd (parse str) = Normal notUnderstood).
Proof.
  intros words inputVerb. unfold parse, parse_with. fold words.
  unfold nextToken in *. cbn [fst] in inputVerb.
  set (it := set_index (newTokenList words) _) in *.
  cbv beta iota. change (currentToken it) with inputVerb.
  assert (Hit : tokens it = words) by reflexivity.
  split.
  - intro H. rewrite (try_verbs_no_verb _ _ _ _ H). reflexivity.
  - intro H.
    destruct (try_verbs_all_failed words inputVerb verbs it Hit)
      as (log & left & E' & _).
    { intros verb rule act Hv Hm Hr inputTokens Hw.
      exact (H verb rule act inputTokens Hv Hm Hr Hw). }
    rewrite E'. reflexivity.
Qed.

(** The command [fly away], whose verb is unknown, and the command
    [give old to old], whose two rules fail on the ambiguous word. *)
Lemma parse_not_understood_witness :
  parse "fly away" = ([NoGoodRulesFound], Normal notUnderstood)
  /\ snd (parse "give old to old") = Normal notUnderstood.
Proof.
  split.
  - apply (proj1 (parse_not_understood "fly away")).
    intros verb Hin. simpl in Hin.
    repeat (destruct Hin as [<-|Hin]; [reflexivity|]). contradiction.
  - apply (proj2 (parse_not_understood "give old to old")).
    intros verb rule act [toks i] Hin Hm Hr Hw.
    cbn [tokens] in Hw. subst toks.
    simpl in Hin.
    repeat (destruct Hin as [<-|Hin];
            [try (vm_compute in Hm; discriminate)|]);
      [|contradiction].
    simpl in Hr. destruct Hr as [[= <- _]|[[= <- _]|[]]].
    + eexists. unfold attempt_rule, set_index. cbn [tokens].
      vm_compute. reflexivity.
    + eexists. unfold attempt_rule, set_index. cbn [tokens].
      vm_compute. reflexivity.
Defined.

(* ================================================================= *)
(** ** Blank input *)

Lemma split_space_not_nil (s : string) : split_space s <> [].
Proof.
  induction s as [|c t IH]; simpl; [discriminate|].
  destruct (Ascii.eqb c " "); [discriminate|].
  destruct (split_space t); discriminate.
Qed.

(** Splitting always yields at least one piece. *)
Lemma tokenizeInputString_not_nil (str : string) :
  tokenizeInputString str <> [].
Proof. apply split_space_not_nil. Qed.

Lemma trimStart_blank (s : string) :
  all_chars is_space s = true -> trimStart s = "".
Proof.
  induction s as [|c t IH]; simpl; [reflexivity|].
  intro H. apply andb_prop in H as [Hc Ht]. rewrite Hc. now apply IH.
Qed.

Lemma trim_blank (s : string) : all_chars is_space s = true -> trim s = "".
Proof. intro H. unfold trim. now rewrite trimStart_blank. Qed.

Lemma tokenizeInputString_blank (s : string) :
  all_chars is_space s = true -> tokenizeInputString s = [""].
Proof. intro H. unfold tokenizeInputString. now rewrite trim_blank. Qed.

(** C10. For the empty string and for a string of white space alone,
    [tokenizeInputString] returns the one word that is empty (and for no
    string at all does it return an empty sequence); [parse] then takes
    the empty word as verb, which is a name of no verb, tries no rule and
    returns the answer for what it does not understand. *)
Theorem blank_input_not_understood :
  (forall str, tokenizeInputString str <> [])
  /\ (forall s, all_chars is_space s = true ->
        tokenizeInputString s = [""]
        /\ fst (nextToken (newTokenList (tokenizeInputString s))) = Elem ""
        /\ (forall verb, In verb verbs -> verb_matches verb (Elem "") = false)
        /\ parse s = ([NoGoodRulesFound], Normal notUnderstood)).
Proof.
  split; [exact tokenizeInputString_not_nil|].
  intros s H. pose proof (tokenizeInputString_blank s H) as Hs.
  conjuncts.
  - exact Hs.
  - rewrite Hs. reflexivity.
  - intros verb Hin. simpl in Hin.
    repeat (destruct Hin as [<-|Hin]; [reflexivity|]). contradiction.
  - unfold parse, parse_with. rewrite Hs. by_evaluation.
Qed.

(** The empty string and a string of a space, a tabulation and a line
    feed. *)
Lemma blank_input_not_understood_witness :
  (tokenizeInputString "" = [""]
   /\ parse "" = ([NoGoodRulesFound], Normal notUnderstood))
  /\ parse (String " " (String (ascii_of_nat 9) (String (ascii_of_nat 10) "")))
     = ([NoGoodRulesFound], Normal notUnderstood).
Proof.
  split.
  - split.
    + apply (proj2 blank_input_not_understood ""). reflexivity.
    + apply (proj2 blank_input_not_understood ""). reflexivity.
  - apply (proj2 blank_input_not_understood
             (String " " (String (ascii_of_nat 9) (String (ascii_of_nat 10) "")))).
    reflexivity.
Defined.

(* ================================================================= *)
(** ** Looking ahead *)


(* ================================================================= *)
(** ** What a matched rule has read *)

(** X2. A rule is taken as matched only when the input cursor is past the
    last word. *)
Theorem matched_rule_uses_up_input (parsers : parsingFunctionMap)
    (inputTokens left : TokenList string) (rule : string)
    (params : list jsvalue) :
  attempt_rule parsers inputTokens rule = Normal (Matched params, left) ->
  (Z.of_nat (List.length (tokens left)) <= index left)%Z.
Proof.
  unfold attempt_rule, bind.
  destruct (tokenizeRule rule) as [toks|]; [|discriminate].
  destruct (walk_rule _ _ _ _ _) as [[[rt it] ps]|]; [|discriminate].
  destruct (both_ended rt it) eqn:E; [|discriminate].
  intros [= _ <-]. now apply both_ended_iff in E.
Qed.

Lemma filter_firstn_le {A} (p : A -> bool) (l : list A) (k : nat) :
  List.length (filter p (firstn k l)) <= List.length (filter p l).
Proof.
  revert k. induction l as [|a l IH]; intros [|k]; simpl; try lia.
  specialize (IH k). destruct (p a); simpl; lia.
Qed.

Lemma filter_firstn_most {A} (p : A -> bool) (l : list A) (k : nat) :
  List.length l <= k + 1 ->
  List.length (filter p l) <= List.length (filter p (firstn k l)) + 1.
Proof.
  revert k. induction l as [|a l IH]; intros k H; simpl in *; [lia|].
  destruct k as [|k].
  - destruct l; [|simpl in H; lia]. simpl. destruct (p a); simpl; lia.
  - simpl. specialize (IH k). destruct (p a); simpl; lia.
Qed.

(** The loop over the rule tokens adds one parameter for each symbol it
    gets past. *)
Lemma walk_rule_params (parsers : parsingFunctionMap) :
  forall fuel ruleTokens inputTokens params ruleTokens' inputTokens' params',
    0 < fuel -> rounds_left ruleTokens <= fuel ->
    (-1 <= index ruleTokens)%Z ->
    walk_rule fuel parsers ruleTokens inputTokens params
    = Normal (ruleTokens', inputTokens', params') ->
    exists k,
      index ruleTokens' = (index ruleTokens + 1 + Z.of_nat k)%Z
      /\ tokens ruleTokens' = tokens ruleTokens
      /\ List.length params'
         = List.length params
           + List.length
               (filter is_symbol
                  (firstn k (skipn (Z.to_nat (index ruleTokens + 1))
                                   (tokens ruleTokens)))).
Proof.
  induction fuel as [|fuel IH];
    intros rt it ps rt' it' ps' Hf Hr Hi; [lia|].
  cbn [walk_rule]. unfold nextToken.
  set (rt1 := set_index rt (index rt + 1)%Z).
  assert (Hzero : forall r i p,
             Normal (rt1, i, p) = Normal (r, it', ps') ->
             exists k,
               index r = (index rt + 1 + Z.of_nat k)%Z
               /\ tokens r = tokens rt
               /\ List.length ps' = List.length p
                  + List.length
                      (filter is_symbol
                         (firstn k (skipn (Z.to_nat (index rt + 1))
                                          (tokens rt))))).
  { intros r i p [= <- _ <-]. exists 0. simpl. repeat split; lia. }
  destruct (currentToken rt1) as [| |ruleToken] eqn:Ecur;
    [intros [= <- _ <-]; exists 0; simpl; repeat split; lia|discriminate|].
  assert (Hnth : nth_error (tokens rt) (Z.to_nat (index rt + 1))
                 = Some ruleToken).
  { unfold currentToken, rt1, set_index in Ecur. cbn [tokens index] in Ecur.
    destruct (_ <? _)%Z; [|discriminate].
    destruct (_ <? 0)%Z; [discriminate|].
    destruct (nth_error _ _); [|discriminate]. now injection Ecur as ->. }
  pose proof (currentToken_elem _ _ Ecur) as Hpos.
  assert (Hleft : S (rounds_left rt1) = rounds_left rt).
  { unfold rounds_left, rt1, set_index in *; cbn [tokens index] in *. lia. }
  assert (Hstep : forall i p r,
             walk_rule fuel parsers rt1 i p = Normal (r, it', ps') ->
             exists k,
               index r = (index rt + 1 + Z.of_nat (S k))%Z
               /\ tokens r = tokens rt
               /\ List.length ps'
                  = List.length p
                    + List.length
                        (filter is_symbol
                           (firstn k (skipn (Z.to_nat (index rt + 1 + 1))
                                            (tokens rt))))).
  { intros i p r H. apply IH in H; [|lia|lia|unfold rt1; simpl; lia].
    destruct H as (k & Hk & Ht & Hl). exists k.
    unfold rt1 in Hk, Ht, Hl; cbn [set_index tokens index] in Hk, Ht, Hl.
    repeat split; try lia; assumption. }
  rewrite (skipn_nth_error _ _ _ Hnth).
  replace (S (Z.to_nat (index rt + 1))) with (Z.to_nat (index rt + 1 + 1))
    by lia.
  destruct (String.eqb (type ruleToken) TT_WORD) eqn:Etype; cbn [andb negb].
  - destruct (strict_eq _ _); cbn [negb].
    + intro H. destruct (Hstep _ _ _ H) as (k & Hk & Ht & Hl).
      exists (S k). repeat split; [exact Hk|exact Ht|].
      cbn [firstn filter]. unfold is_symbol at 1. rewrite Etype. cbn [negb].
      exact Hl.
    + intros [= <- _ <-]. exists 0. simpl. repeat split; lia.
  - destruct (map_get parsers (type ruleToken)) as [parsingFn|];
      [|intros [= <- _ <-]; exists 0; simpl; repeat split; lia].
    destruct (parsingFn it) as [res it1].
    destruct (no_error res);
      [|intros [= <- _ <-]; exists 0; simpl; repeat split; lia].
    intro H. destruct (Hstep _ _ _ H) as (k & Hk & Ht & Hl).
    exists (S k). repeat split; [exact Hk|exact Ht|].
    cbn [firstn filter]. unfold is_symbol at 1. rewrite Etype. cbn [negb].
    rewrite Hl, length_app. simpl. lia.
Qed.

(** X3. A rule that is taken as matched hands its action one parameter for
    each symbol of the rule, or one parameter less: the parameter of the
    last token is missing when the loop was left on that token. *)
Theorem matched_rule_parameters (parsers : parsingFunctionMap)
    (inputTokens left : TokenList string) (rule : string)
    (toks : list Token) (params : list jsvalue) :
  tokenizeRule rule = Normal toks ->
  attempt_rule parsers inputTokens rule = Normal (Matched params, left) ->
  List.length params <= List.length (filter is_symbol toks)
  /\ List.length (filter is_symbol toks) <= List.length params + 1.
Proof.
  intro Htoks. unfold attempt_rule, bind. rewrite Htoks.
  destruct (walk_rule _ _ _ _ _) as [[[rt it] ps]|] eqn:E; [|discriminate].
  destruct (both_ended rt it) eqn:Eend; [|discriminate].
  intros [= <- _].
  apply walk_rule_params in E;
    [|lia|unfold rounds_left, newTokenList; simpl; lia
     |unfold newTokenList; simpl; lia].
  destruct E as (k & Hk & Ht & Hl).
  unfold newTokenList in Hk, Ht, Hl; cbn [tokens index] in Hk, Ht, Hl.
  change (Z.to_nat (-1 + 1)) with 0 in Hl. cbn [skipn] in Hl.
  cbn [List.length] in Hl. rewrite Nat.add_0_l in Hl.
  apply both_ended_iff in Eend as [Hrule _]. rewrite Ht in Hrule.
  rewrite Hl. split.
  - apply filter_firstn_le.
  - apply filter_firstn_most. lia.
Qed.

Lemma matched_rule_parameters_witness :
  let desk := VObject (newGameObject ["desk"]) in
  let toks := [Symbol "single"; Literal "on"; Symbol "single"] in
  List.length [desk] <= List.length (filter is_symbol toks)
  /\ List.length (filter is_symbol toks) <= List.length [desk] + 1.
Proof.
  cbv zeta.
  apply (matched_rule_parameters tokenParsingFunctionMap
           {| tokens := ["put"; "desk"; "on"]; index := 1 |}
           {| tokens := ["put"; "desk"; "on"]; index := 3 |}
           ("single " ++ quoted "on" ++ " single")%string).
  - vm_compute; reflexivity.
  - vm_compute; reflexivity.
Defined.

Lemma matched_rule_uses_up_input_witness :
  (Z.of_nat (List.length ["give"; "old"; "man"; "key"]) <= 4)%Z.
Proof.
  apply (matched_rule_uses_up_input tokenParsingFunctionMap
           {| tokens := ["give"; "old"; "man"; "key"]; index := 1 |}
           {| tokens := ["give"; "old"; "man"; "key"]; index := 4 |}
           "single single"
           [VObject (newGameObject ["old"; "man"]);
            VObject (newGameObject ["old"; "rusty"; "key"])]).
  vm_compute; reflexivity.
Defined.

(* ================================================================= *)
(** ** The input cursor only moves forward *)

Lemma score_loop_forward (name : list string) :
  forall fuel inputTokens acc,
    (index inputTokens <= index (snd (score_loop fuel name inputTokens acc)))%Z.
Proof.
  induction fuel as [|fuel IH]; intros it acc; cbn [score_loop];
    [simpl; lia|].
  destruct (currentToken it) as [| |w]; try (simpl; lia).
  destruct (truthy w); [|simpl; lia].
  destruct (includes name w); [|simpl; lia].
  specialize (IH (snd (nextToken it)) (acc + 1)%Z).
  unfold nextToken, set_index in IH; cbn [snd index] in IH.
  unfold nextToken, set_index; cbn [snd index]. lia.
Qed.

Lemma score_object_forward (startIndex : Z) (st : bestState)
    (c : GameObject.t) :
  not_before startIndex st -> not_before startIndex (score_object startIndex st c).
Proof.
  intros [_ Hbest]. unfold score_object.
  change (-1 =? -1)%Z with true. cbv iota.
  pose proof (score_loop_forward (GameObject.name c)
                (List.length (tokens (set_index (cursor st) startIndex)))
                (set_index (cursor st) startIndex) 0%Z) as Hfwd.
  destruct (score_loop _ _ _ _) as [m it]. cbn [snd set_index index] in Hfwd.
  unfold not_before.
  destruct (0 <? m)%Z; [|split; [exact Hfwd|exact Hbest]].
  destruct (m =? bestMatchScore st)%Z.
  - split; [exact Hfwd|]. cbn [bestMatch].
    apply Forall_app; split; [exact Hbest|]. now constructor.
  - destruct (bestMatchScore st <? m)%Z; split; try exact Hfwd;
      cbn [bestMatch]; [|exact Hbest]. now constructor.
Qed.

Lemma parseSingle_in_forward (candidates : list GameObject.t) :
  moves_forward (parseSingle_in candidates).
Proof.
  intro it. unfold parseSingle_in.
  assert (H : forall cs st,
             not_before (index it) st ->
             not_before (index it) (fold_left (score_object (index it)) cs st)).
  { induction cs as [|c cs IH]; intros st Hst; simpl; [exact Hst|].
    apply IH, score_object_forward, Hst. }
  specialize (H candidates
                {| bestMatch := []; bestMatchScore := 0%Z; cursor := it |}).
  destruct H as [Hcur Hbest]; [split; [simpl; lia|constructor]|].
  destruct (0 <? _)%Z; [|exact Hcur].
  destruct (bestMatch _) as [|[o e] [|]]; try exact Hcur.
  inversion Hbest; subst. simpl in *. assumption.
Qed.

Lemma collect_words_forward :
  forall splitDance inputTokens danceWords,
    (index inputTokens
     <= index (snd (collect_words splitDance inputTokens danceWords)))%Z.
Proof.
  induction splitDance as [|d rest IH]; intros it ws; cbn [collect_words];
    [simpl; lia|].
  destruct (currentToken it) as [| |w]; try (simpl; lia).
  destruct (truthy w); [|simpl; lia].
  specialize (IH (snd (nextToken it)) (ws ++ [w])).
  unfold nextToken, set_index in *; cbn [snd index] in *. lia.
Qed.

Lemma try_dances_forward (startIndex : Z) :
  forall dances inputTokens,
    (startIndex <= index (snd (try_dances startIndex dances inputTokens)))%Z.
Proof.
  induction dances as [|dance rest IH]; intro it; cbn [try_dances];
    [simpl; lia|].
  pose proof (collect_words_forward (split_space dance)
                (set_index it startIndex) []) as Hfwd.
  destruct (collect_words _ _ _) as [ws it1]. cbn [snd set_index index] in Hfwd.
  destruct (String.eqb _ _); [exact Hfwd|apply IH].
Qed.

Lemma tokenParsingFunctionMap_forward (symbol : string)
    (parsingFn : parsingFunction) :
  map_get tokenParsingFunctionMap symbol = Some parsingFn ->
  moves_forward parsingFn.
Proof.
  unfold tokenParsingFunctionMap; cbn [map_get].
  destruct (String.eqb "single" symbol).
  - intros [= <-]. apply parseSingle_in_forward.
  - destruct (String.eqb "dance_style" symbol); [|discriminate].
    intros [= <-] it. apply try_dances_forward.
Qed.

Lemma walk_rule_forward (parsers : parsingFunctionMap) :
  (forall symbol parsingFn,
      map_get parsers symbol = Some parsingFn -> moves_forward parsingFn) ->
  forall fuel ruleTokens inputTokens params ruleTokens' inputTokens' params',
    walk_rule fuel parsers ruleTokens inputTokens params
    = Normal (ruleTokens', inputTokens', params') ->
    (index inputTokens <= index inputTokens')%Z.
Proof.
  intro Hfwd.
  induction fuel as [|fuel IH]; intros rt it ps rt' it' ps'; cbn [walk_rule].
  - intros [= _ <- _]. lia.
  - destruct (nextToken rt) as [next rt1].
    destruct next as [| |ruleToken]; [|discriminate|].
    + intros [= _ <- _]. lia.
    + destruct (String.eqb (type ruleToken) TT_WORD); cbn [andb negb].
      * destruct (strict_eq _ _); cbn [negb].
        -- intro H. apply IH in H.
           unfold nextToken, set_index in H; cbn [snd index] in H. lia.
        -- intros [= _ <- _]. lia.
      * destruct (map_get parsers (type ruleToken)) as [parsingFn|] eqn:Hget.
        -- pose proof (Hfwd _ _ Hget it) as Hit.
           destruct (parsingFn it) as [res it1]. cbn [snd] in Hit.
           destruct (no_error res).
           ++ intro H. apply IH in H. lia.
           ++ intros [= _ <- _]. exact Hit.
        -- intros [= _ <- _]. lia.
Qed.

Lemma attempt_rule_index (inputTokens left : TokenList string)
    (rule : string) (a : attempt) :
  attempt_rule tokenParsingFunctionMap inputTokens rule = Normal (a, left) ->
  (1 <= index left)%Z.
Proof.
  unfold attempt_rule, bind.
  destruct (tokenizeRule rule) as [toks|]; [|discriminate].
  destruct (walk_rule _ _ _ _ _) as [[[rt it] ps]|] eqn:E; [|discriminate].
  apply (walk_rule_forward _ tokenParsingFunctionMap_forward) in E.
  cbn [set_index index] in E.
  destruct (both_ended rt it); intros [= _ <-]; exact E.
Qed.

(** X4. The input cursor never moves backwards: [parseSingle] and
    [parseDanceStyle] leave it where it was or further on, whether they
    fail or not, and a rule attempt, which starts behind the verb, leaves
    it behind the verb or further on. *)
Theorem input_cursor_moves_forward :
  moves_forward parseSingle
  /\ moves_forward parseDanceStyle
  /\ (forall inputTokens left rule a,
        attempt_rule tokenParsingFunctionMap inputTokens rule
        = Normal (a, left) ->
        (1 <= index left)%Z).
Proof.
  conjuncts.
  - apply parseSingle_in_forward.
  - intro it. apply try_dances_forward.
  - exact attempt_rule_index.
Qed.

(** The rule of [put] on words with two crates: the attempt fails on the
    first symbol and leaves the cursor behind the first crate. *)
Lemma input_cursor_moves_forward_witness : (1 <= 2)%Z.
Proof.
  apply (proj2 (proj2 input_cursor_moves_forward)
           {| tokens := ["put"; "crate"; "on"; "crate"]; index := 1 |}
           {| tokens := ["put"; "crate"; "on"; "crate"]; index := 2 |}
           ("single " ++ quoted "on" ++ " single")%string Failed).
  vm_compute; reflexivity.
Defined.

(** X5. The words of the input are never changed: not by [parseSingle],
    not by [parseDanceStyle], not by a rule attempt. *)
Theorem input_words_never_change :
  keeps_tokens parseSingle
  /\ keeps_tokens parseDanceStyle
  /\ (forall inputTokens left rule a,
        attempt_rule tokenParsingFunctionMap inputTokens rule
        = Normal (a, left) ->
        tokens left = tokens inputTokens).
Proof.
  conjuncts.
  - intro it. apply parseSingle_in_tokens.
  - intro it. apply try_dances_tokens.
  - intros it left rule a. apply attempt_rule_tokens.
Qed.

Lemma input_words_never_change_witness :
  ["put"; "crate"; "on"; "crate"] = ["put"; "crate"; "on"; "crate"].
Proof.
  apply (proj2 (proj2 input_words_never_change)
           {| tokens := ["put"; "crate"; "on"; "crate"]; index := 1 |}
           {| tokens := ["put"; "crate"; "on"; "crate"]; index := 2 |}
           ("single " ++ quoted "on" ++ " single")%string Failed).
  vm_compute; reflexivity.
Defined.

(* ================================================================= *)
(** ** The first rule that matches wins *)

Lemma attempt_rule_restarts (parsers : parsingFunctionMap)
    (inputTokens : TokenList string) (rule : string) :
  attempt_rule parsers inputTokens rule
  = attempt_rule parsers {| tokens := tokens inputTokens; index := 1 |} rule.
Proof. reflexivity. Qed.

(** X6. The rules of a verb are tried in the order of the map, each from
    the word behind the verb, whatever the attempts before have done to
    the cursor: when the rules in front all fail and the next one is
    taken as matched, its action is called with the parameters of that
    attempt, and the rules behind it are not tried. *)
Theorem first_matching_rule_wins (words : list string)
    (failing rest : list (string * action)) (rule : string) (act : action)
    (params : list jsvalue) (left inputTokens : TokenList string) :
  tokens inputTokens = words ->
  (forall r a, In (r, a) failing ->
     exists l, attempt_rule tokenParsingFunctionMap
                 {| tokens := words; index := 1 |} r = Normal (Failed, l)) ->
  attempt_rule tokenParsingFunctionMap {| tokens := words; index := 1 |} rule
  = Normal (Matched params, left) ->
  try_rules tokenParsingFunctionMap (failing ++ (rule, act) :: rest)
            inputTokens
  = (failed_log failing ++ [TryingRule rule; GoodRuleFound rule],
     Some (act params), left).
Proof.
  intros Hw Hfail Hmatch. revert inputTokens Hw.
  induction failing as [|[r a] failing IH]; intros it Hw.
  - cbn [app try_rules failed_log flat_map].
    rewrite attempt_rule_restarts, Hw, Hmatch. reflexivity.
  - cbn [app try_rules].
    destruct (Hfail r a (or_introl eq_refl)) as [l Hl].
    rewrite attempt_rule_restarts, Hw, Hl.
    rewrite IH.
    + reflexivity.
    + intros r' a' Hin. apply (Hfail r' a'). now right.
    + apply attempt_rule_tokens in Hl. exact Hl.
Qed.

Lemma first_matching_rule_wins_witness :
  let rule1 := (quoted "up" ++ " single")%string in
  let rule2 := (quoted "up" ++ " single " ++ quoted "on" ++ " single")%string in
  let words := ["pick"; "up"; "old"; "key"; "on"; "desk"] in
  try_rules tokenParsingFunctionMap
            ([(rule1, actionTake)] ++ (rule2, actionTakeFrom) :: [])
            {| tokens := words; index := 0 |}
  = (failed_log [(rule1, actionTake)]
       ++ [TryingRule rule2; GoodRuleFound rule2],
     Some (actionTakeFrom [VObject (newGameObject ["old"; "rusty"; "key"]);
                           VObject (newGameObject ["desk"])]),
     {| tokens := words; index := 6 |}).
Proof.
  cbv zeta.
  apply (first_matching_rule_wins ["pick"; "up"; "old"; "key"; "on"; "desk"]).
  - reflexivity.
  - intros r a [[= <- <-]|[]]. eexists. vm_compute. reflexivity.
  - vm_compute. reflexivity.
Defined.

(* ================================================================= *)
(** ** parseDanceStyle *)

Lemma remaining_next (inputTokens : TokenList string) (w : string) :
  currentToken inputTokens = Elem w ->
  remaining inputTokens = w :: remaining (snd (nextToken inputTokens)).
Proof.
  unfold currentToken, remaining, nextToken, set_index. cbn [snd index tokens].
  destruct (Z.ltb_spec (index inputTokens)
              (Z.of_nat (List.length (tokens inputTokens)))); [|discriminate].
  destruct (Z.ltb_spec (index inputTokens) 0); [discriminate|].
  destruct (nth_error _ _) as [a|] eqn:E; [|discriminate].
  intros [= ->].
  destruct (Z.ltb_spec (index inputTokens + 1) 0); [lia|].
  rewrite (skipn_nth_error _ _ _ E). f_equal. f_equal. lia.
Qed.

(** The words that the loop of [parseDanceStyle] collects are the next
    words of the input, at most one for each word of the dance. *)
Lemma collect_words_prefix :
  forall splitDance inputTokens danceWords,
    exists k,
      k <= List.length splitDance
      /\ collect_words splitDance inputTokens danceWords
         = (danceWords ++ firstn k (remaining inputTokens),
            set_index inputTokens (index inputTokens + Z.of_nat k)).
Proof.
  induction splitDance as [|d rest IH]; intros it ws; cbn [collect_words].
  - exists 0. split; [lia|]. cbn [firstn]. rewrite app_nil_r.
    destruct it; unfold set_index; simpl. now rewrite Z.add_0_r.
  - assert (Hstop : exists k,
               k <= List.length (d :: rest)
               /\ (ws, it) = (ws ++ firstn k (remaining it),
                             set_index it (index it + Z.of_nat k))).
    { exists 0. split; [simpl; lia|]. cbn [firstn]. rewrite app_nil_r.
      destruct it; unfold set_index; simpl. now rewrite Z.add_0_r. }
    destruct (currentToken it) as [| |w] eqn:E; try exact Hstop.
    destruct (truthy w); [|exact Hstop].
    destruct (IH (snd (nextToken it)) (ws ++ [w])) as (k & Hk & Heq).
    exists (S k). split; [simpl; lia|].
    rewrite Heq, (remaining_next _ _ E). cbn [firstn].
    rewrite <- app_assoc. cbn [app]. f_equal.
    unfold nextToken, set_index; cbn [snd tokens index]. f_equal. lia.
Qed.

Lemma try_dances_outcome (startIndex : Z) (toks : list string) :
  forall dances inputTokens,
    tokens inputTokens = toks ->
    let start := {| tokens := toks; index := startIndex |} in
    try_dances startIndex dances inputTokens = (unknownDance, start)
    \/ exists dance k,
         In dance dances
         /\ join_space (firstn k (remaining start)) = dance
         /\ try_dances startIndex dances inputTokens
            = ({| result := VString dance; error := None |},
               set_index start (startIndex + Z.of_nat k)).
Proof.
  induction dances as [|dance rest IH]; intros it Ht; cbv zeta.
  - left. cbn [try_dances]. unfold set_index. now rewrite Ht.
  - cbn [try_dances].
    assert (Hstart : set_index it startIndex
                     = {| tokens := toks; index := startIndex |})
      by (unfold set_index; now rewrite Ht).
    rewrite Hstart.
    destruct (collect_words_prefix (split_space dance)
                {| tokens := toks; index := startIndex |} [])
      as (k & _ & Heq).
    rewrite Heq. cbn [app index].
    destruct (String.eqb_spec
                (join_space (firstn k (remaining {| tokens := toks;
                                                    index := startIndex |})))
                dance) as [Hd|_].
    + right. exists dance, k. split; [now left|]. split; [exact Hd|reflexivity].
    + destruct (IH (set_index {| tokens := toks; index := startIndex |}
                      (startIndex + Z.of_nat k)%Z) eq_refl)
        as [Hfail|(d & k' & Hin & Hj & Hok)].
      * now left.
      * right. exists d, k'. split; [now right|]. split; assumption.
Qed.

(** X7. [parseDanceStyle] either fails and leaves the input cursor where it
    was, or answers with one of its three dances, read word by word off
    the input from the cursor on, and leaves the cursor behind these
    words. *)
Theorem parseDanceStyle_outcome (inputTokens : TokenList string) :
  parseDanceStyle inputTokens = (unknownDance, inputTokens)
  \/ exists dance k,
       In dance ["waltz"; "tango"; "funky chicken"]
       /\ join_space (firstn k (remaining inputTokens)) = dance
       /\ parseDanceStyle inputTokens
          = ({| result := VString dance; error := None |},
             set_index inputTokens (index inputTokens + Z.of_nat k)).
Proof.
  destruct inputTokens as [toks i]. unfold parseDanceStyle. cbn [index].
  apply (try_dances_outcome i toks _ {| tokens := toks; index := i |}).
  reflexivity.
Qed.

(* ================================================================= *)
(** ** The order of the words of a name *)

Lemma includes_In (l : list string) (w : string) :
  includes l w = true <-> In w l.
Proof.
  unfold includes. rewrite existsb_exists. split.
  - intros (x & Hin & Heq). apply String.eqb_eq in Heq. now subst.
  - intro H. exists w. split; [exact H|apply String.eqb_refl].
Qed.

Lemma includes_same_members (n1 n2 : list string) :
  (forall w, In w n1 <-> In w n2) ->
  forall w, includes n1 w = includes n2 w.
Proof.
  intros H w. apply eq_true_iff_eq. rewrite !includes_In. apply H.
Qed.

Lemma score_loop_same_members (n1 n2 : list string) :
  (forall w, In w n1 <-> In w n2) ->
  forall fuel inputTokens acc,
    score_loop fuel n1 inputTokens acc = score_loop fuel n2 inputTokens acc.
Proof.
  intro H. induction fuel as [|fuel IH]; intros it acc; cbn [score_loop];
    [reflexivity|].
  destruct (currentToken it) as [| |w]; try reflexivity.
  destruct (truthy w); [|reflexivity].
  rewrite (includes_same_members n1 n2 H w).
  destruct (includes n2 w); [apply IH|reflexivity].
Qed.

Section Renaming.

Variable f : GameObject.t -> GameObject.t.
Hypothesis same_members :
  forall c w, In w (GameObject.name (f c)) <-> In w (GameObject.name c).

Lemma score_object_renamed (startIndex : Z) (st st' : bestState)
    (c : GameObject.t) :
  renamed_state f st st' ->
  renamed_state f (score_object startIndex st c)
                  (score_object startIndex st' (f c)).
Proof.
  intros (Hscore & Hcur & Hbest). unfold score_object.
  change (-1 =? -1)%Z with true. cbv iota.
  rewrite Hcur, Hscore.
  rewrite (score_loop_same_members _ _ (same_members c)).
  destruct (score_loop _ _ _ _) as [m it].
  unfold renamed_state.
  destruct (0 <? m)%Z; cbn [bestMatch bestMatchScore cursor]; [|auto].
  destruct (m =? bestMatchScore st)%Z;
    cbn [bestMatch bestMatchScore cursor].
  - repeat split. rewrite Hbest, map_app. reflexivity.
  - destruct (bestMatchScore st <? m)%Z;
      cbn [bestMatch bestMatchScore cursor]; auto.
Qed.

Lemma fold_score_object_renamed (startIndex : Z) :
  forall cs st st',
    renamed_state f st st' ->
    renamed_state f (fold_left (score_object startIndex) cs st)
                    (fold_left (score_object startIndex) (map f cs) st').
Proof.
  induction cs as [|c cs IH]; intros st st' H; simpl; [exact H|].
  apply IH, score_object_renamed, H.
Qed.

(** X8. [parseSingle] looks at the words of a name as a set: when the words
    of the names are put in another order or repeated, the answer is the
    same but for the names in it, and the cursor is left at the same
    place. *)
Theorem parseSingle_name_order (candidates : list GameObject.t)
    (inputTokens : TokenList string) :
  parseSingle_in (map f candidates) inputTokens
  = (rename_result f (fst (parseSingle_in candidates inputTokens)),
     snd (parseSingle_in candidates inputTokens)).
Proof.
  unfold parseSingle_in.
  pose proof (fold_score_object_renamed (index inputTokens) candidates
                {| bestMatch := []; bestMatchScore := 0%Z;
                   cursor := inputTokens |}
                {| bestMatch := []; bestMatchScore := 0%Z;
                   cursor := inputTokens |}) as H.
  destruct H as (Hscore & Hcur & Hbest); [now repeat split|].
  rewrite Hscore, Hcur, Hbest.
  set (st := fold_left _ candidates _).
  destruct (0 <? bestMatchScore st)%Z; [|reflexivity].
  destruct (bestMatch st) as [|[o e] [|q rest]]; reflexivity.
Qed.

End Renaming.

(** The names of the room of the source with their words reversed. *)
Lemma parseSingle_name_order_witness :
  let reversed c := newGameObject (rev (GameObject.name c)) in
  let inputTokens := {| tokens := ["take"; "rusty"; "old"]; index := 1 |} in
  parseSingle_in (map reversed getGameObjectsFromCurrentRoom) inputTokens
  = ({| result := VObject (newGameObject ["key"; "rusty"; "old"]);
        error := None |},
     {| tokens := ["take"; "rusty"; "old"]; index := 3 |}).
Proof.
  cbv zeta.
  rewrite (parseSingle_name_order
             (fun c => newGameObject (rev (GameObject.name c)))).
  - vm_compute. reflexivity.
  - intros c w. cbn. symmetry. apply in_rev.
Defined.

(* ================================================================= *)
(** ** What an answer of parseSingle tells *)

Lemma overlap_run_members (name words : list string) :
  overlap_run name words <= List.length words
  /\ Forall (fun w => In w name) (firstn (overlap_run name words) words).
Proof.
  induction words as [|w words [IHlen IHall]]; cbn [overlap_run].
  - split; [simpl; lia|constructor].
  - destruct (includes name w) eqn:E.
    + split; [simpl; lia|]. cbn [firstn]. constructor; [|exact IHall].
      now apply includes_In.
    + split; [lia|constructor].
Qed.

(** X9. When [parseSingle] answers with an object, the object is the one
    candidate of the list with the highest score, at least one word has
    been read, the cursor is within the input, and every word read is a
    word of the name of the object. *)
Theorem parseSingle_answer (candidates : list GameObject.t)
    (inputTokens left : TokenList string) (r : ParseResult) :
  Forall (fun w => w <> "") (tokens inputTokens) ->
  parseSingle_in candidates inputTokens = (r, left) ->
  error r = None ->
  exists c,
    In c candidates
    /\ r = {| result := VObject c; error := None |}
    /\ best_candidates inputTokens candidates = [c]
    /\ (index inputTokens < index left
        <= Z.of_nat (List.length (tokens inputTokens)))%Z
    /\ tokens left = tokens inputTokens
    /\ Forall (fun w => In w (GameObject.name c))
         (firstn (Z.to_nat (index left - index inputTokens))
                 (remaining inputTokens)).
Proof.
  intros Hwords Hparse Herr.
  destruct (Z.ltb_spec (index inputTokens) 0) as [Hneg|Hi].
  - exfalso. unfold parseSingle_in in Hparse.
    rewrite fold_score_object_before_start in Hparse by exact Hneg.
    cbn in Hparse. injection Hparse as <- _. discriminate.
  - destruct inputTokens as [toks i]. cbn [index tokens] in *.
    destruct (Z_of_nat_complete i Hi) as [n ->]. clear Hi.
    unfold best_candidates, best_score, overlap_score, remaining.
    cbn [index tokens].
    destruct (Z.ltb_spec (Z.of_nat n) 0); [lia|]. rewrite Nat2Z.id.
    set (sc := fun c => Z.of_nat (overlap_run (GameObject.name c) (skipn n toks))).
    set (best := fold_right Z.max 0%Z (map sc candidates)).
    assert (Hfound :
      found toks n candidates
        (fold_left (score_object (Z.of_nat n)) candidates
           {| bestMatch := []; bestMatchScore := 0%Z;
              cursor := {| tokens := toks; index := Z.of_nat n |} |})).
    { apply (found_all toks Hwords n candidates []).
      unfold found; cbn. auto. }
    unfold found in Hfound. cbv zeta in Hfound. fold sc in Hfound.
    destruct Hfound as (Htoks & Hbest & Hmatch). fold best in Hbest.
    unfold parseSingle_in in Hparse. cbn [index] in Hparse.
    set (st := fold_left _ _ _) in *.
    rewrite Hbest in Hmatch, Hparse.
    destruct (Z.ltb_spec 0 best) as [Hpos|];
      [|injection Hparse as <- _; discriminate].
    assert (Hwin : filter (fun c => (0 <? sc c)%Z && (sc c =? best)%Z)
                          candidates
                   = filter (fun c => (sc c =? best)%Z) candidates).
    { apply filter_ext. intro c.
      destruct (Z.eqb_spec (sc c) best) as [->|]; [|apply andb_false_r].
      destruct (Z.ltb_spec 0 best); [reflexivity|lia]. }
    assert (Hpairs : bestMatch st
                     = map (fun c => (c, (Z.of_nat n + sc c)%Z))
                           (filter (fun c => (sc c =? best)%Z) candidates)).
    { rewrite <- Hwin. exact Hmatch. }
    destruct (filter (fun c => (sc c =? best)%Z) candidates)
      as [|c [|c' more]] eqn:Hfilter;
      rewrite Hpairs in Hparse; cbn [map] in Hparse;
      try (injection Hparse as <- _; discriminate).
    injection Hparse as <- <-.
    assert (Hc : In c candidates /\ (sc c =? best)%Z = true).
    { apply (proj1 (filter_In (fun c => (sc c =? best)%Z) c candidates)).
      rewrite Hfilter. now left. }
    destruct Hc as [Hin Hsc]. apply Z.eqb_eq in Hsc.
    destruct (overlap_run_members (GameObject.name c) (skipn n toks))
      as [Hlen Hall].
    rewrite length_skipn in Hlen.
    exists c. unfold set_index; cbn [index tokens].
    repeat split; try assumption; try (unfold sc in *; lia).
    replace (Z.to_nat (Z.of_nat n + sc c - Z.of_nat n))
      with (overlap_run (GameObject.name c) (skipn n toks))
      by (unfold sc; lia).
    exact Hall.
Qed.

Lemma parseSingle_answer_witness :
  exists c,
    In c getGameObjectsFromCurrentRoom
    /\ {| result := VObject (newGameObject ["desk"]); error := None |}
       = {| result := VObject c; error := None |}
    /\ best_candidates {| tokens := ["put"; "desk"; "on"]; index := 1 |}
                       getGameObjectsFromCurrentRoom = [c]
    /\ (1 < 2 <= Z.of_nat (List.length ["put"; "desk"; "on"]))%Z
    /\ ["put"; "desk"; "on"] = ["put"; "desk"; "on"]
    /\ Forall (fun w => In w (GameObject.name c))
         (firstn (Z.to_nat (2 - 1))
                 (remaining {| tokens := ["put"; "desk"; "on"]; index := 1 |})).
Proof.
  apply (parseSingle_answer getGameObjectsFromCurrentRoom
           {| tokens := ["put"; "desk"; "on"]; index := 1 |}
           {| tokens := ["put"; "desk"; "on"]; index := 2 |}
           {| result := VObject (newGameObject ["desk"]); error := None |}).
  - repeat constructor; discriminate.
  - vm_compute. reflexivity.
  - reflexivity.
Defined.

(* ================================================================= *)
(** ** The actions *)

(** X10. The actions that print names return a text when the parameters
    they print are game objects, and throw otherwise; the two dance
    actions always return. *)
Theorem actions_return_on_objects (params : list jsvalue) :
  returns (actionTake params) = is_object (argument params 0)
  /\ returns (actionTakeFrom params)
     = is_object (argument params 0) && is_object (argument params 1)
  /\ returns (actionGive params)
     = is_object (argument params 0) && is_object (argument params 1)
  /\ returns (actionGiveReversed params)
     = is_object (argument params 0) && is_object (argument params 1)
  /\ returns (actionPut params)
     = is_object (argument params 0) && is_object (argument params 1)
  /\ returns (actionDance params) = true
  /\ returns (actionDanceWithStyle params) = true.
Proof.
  unfold actionTake, actionTakeFrom, actionGive, actionGiveReversed,
    actionGive, actionPut, actionDance, actionDanceWithStyle.
  cbn [argument nth].
  conjuncts; try reflexivity;
    destruct (argument params 0) as [| |o|s];
    destruct (argument params 1) as [| |o'|s']; reflexivity.
Qed.

(** X11. [actionGiveReversed] never returns a text: when it returns, it
    returns [undefined]. *)
Theorem actionGiveReversed_undefined (params : list jsvalue) (v : jsvalue) :
  actionGiveReversed params = Normal v -> v = VUndefined.
Proof.
  unfold actionGiveReversed, bind.
  destruct (actionGive _); [|discriminate]. now intros [= <-].
Qed.

Lemma actionGiveReversed_undefined_witness :
  VUndefined = VUndefined.
Proof.
  apply (actionGiveReversed_undefined
           [VObject (newGameObject ["old"; "rusty"; "key"]);
            VObject (newGameObject ["old"; "man"])]).
  reflexivity.
Defined.

(* ================================================================= *)
(** ** The tokens of any rule *)

Lemma lower_runs_are_words (s : string) :
  forallb is_word (lower_runs s) = true.
Proof.
  induction s as [|c s IH]; [reflexivity|].
  cbn [lower_runs]. destruct (is_lower_az c) eqn:Hc; [|exact IH].
  destruct s as [|d s]; [cbn; now rewrite Hc|].
  destruct (is_lower_az d) eqn:Hd.
  - destruct (lower_runs (String d s)) as [|w ws]; [cbn; now rewrite Hc|].
    cbn [forallb] in IH |- *. apply andb_prop in IH as [Hw Hws].
    rewrite Hws, andb_true_r.
    unfold is_word in Hw |- *. apply andb_prop in Hw as [_ Hw].
    cbn. now rewrite Hc, Hw.
  - cbn [forallb]. rewrite IH, andb_true_r. cbn. now rewrite Hc.
Qed.

Lemma nonspace_run_chars (s : string) :
  all_chars (fun c => negb (is_space c)) (fst (nonspace_run s)) = true.
Proof.
  induction s as [|c s IH]; [reflexivity|].
  cbn [nonspace_run]. destruct (is_space c) eqn:Hc; [reflexivity|].
  destruct (nonspace_run s) as [run rest]. cbn [fst] in *.
  cbn [all_chars]. now rewrite Hc, IH.
Qed.

Lemma quoted_span_starts (s part rest : string) :
  quoted_span s = Some (part, rest) -> starts_with_quote part = true.
Proof.
  destruct s as [|q [|d t]]; cbn [quoted_span]; try discriminate.
  destruct (Ascii.eqb q quote) eqn:Hq; [|discriminate].
  destruct (negb (is_line_terminator d)); [|discriminate]. cbn [andb].
  destruct (until_quote t) as [[b r]|]; [|discriminate].
  intros [= <- _]. exact Hq.
Qed.

(** Every part of a rule has a quote in front or is a bare segment. *)
Lemma rule_parts_from_shape :
  forall fuel s,
    forallb (fun part => starts_with_quote part || is_bare part)
            (rule_parts_from fuel s) = true.
Proof.
  induction fuel as [|fuel IH]; intro s; [reflexivity|].
  destruct s as [|c s]; [reflexivity|]. cbn [rule_parts_from].
  destruct (quoted_span (String c s)) as [[part rest]|] eqn:E.
  - cbn [forallb]. rewrite (quoted_span_starts _ _ _ E), IH. reflexivity.
  - destruct (is_space c) eqn:Hc; [apply IH|].
    pose proof (nonspace_run_chars (String c s)) as Hchars.
    cbn [nonspace_run] in Hchars |- *. rewrite Hc in Hchars |- *.
    destruct (nonspace_run s) as [run rest]. cbn [fst] in Hchars.
    cbn [forallb]. rewrite IH, andb_true_r.
    cbn [starts_with_quote is_bare]. rewrite Hchars, andb_true_r.
    now destruct (Ascii.eqb c quote).
Qed.

Lemma literals_ok (words : list string) :
  forallb token_ok (map Literal words) = forallb is_word words.
Proof.
  induction words as [|w ws IH]; [reflexivity|].
  cbn [map forallb]. now rewrite IH.
Qed.

Lemma part_tokens_ok (part : string) (toks : list Token) :
  starts_with_quote part || is_bare part = true ->
  part_tokens part = Normal toks -> forallb token_ok toks = true.
Proof.
  intro Hshape. destruct part as [|c part]; [discriminate Hshape|].
  cbn [part_tokens starts_with_quote] in *.
  destruct (Ascii.eqb c quote).
  - unfold part_words, match_result.
    pose proof (lower_runs_are_words (String c part)) as Hw.
    destruct (lower_runs (String c part)) as [|w ws]; [discriminate|].
    intros [= <-]. change (forallb token_ok (map Literal (w :: ws)) = true).
    rewrite literals_ok. exact Hw.
  - intros [= <-]. cbn [forallb token_ok value type Symbol].
    cbn [orb] in Hshape. now rewrite Hshape.
Qed.

(** X12. Whatever the rule, the tokens that [tokenizeRule] returns are
    literals holding a word of lower-case letters and symbols whose name
    is not empty, holds no white space and does not start with a
    quote. *)
Theorem tokenizeRule_tokens (rule : string) (toks : list Token) :
  tokenizeRule rule = Normal toks -> forallb token_ok toks = true.
Proof.
  unfold tokenizeRule, rule_parts, match_result.
  pose proof (rule_parts_from_shape (String.length rule) rule) as Hshape.
  destruct (rule_parts_from _ _) as [|p ps]; [now intros [= <-]|].
  revert toks. generalize dependent (p :: ps). clear p ps.
  induction l as [|part parts IH]; intros Hshape toks;
    cbn [parts_tokens]; [now intros [= <-]|].
  cbn [forallb] in Hshape. apply andb_prop in Hshape as [Hp Hps].
  unfold bind. destruct (part_tokens part) as [ts|] eqn:E; [|discriminate].
  destruct (parts_tokens parts) as [more|]; [|discriminate].
  intros [= <-]. rewrite forallb_app.
  now rewrite (part_tokens_ok _ _ Hp E), (IH Hps more eq_refl).
Qed.

Lemma tokenizeRule_tokens_witness :
  forallb token_ok [Literal "possession"; Literal "of"; Symbol "single"]
  = true.
Proof.
  apply (tokenizeRule_tokens (quoted "possession of" ++ " single")).
  vm_compute. reflexivity.
Defined.

(** X13. [tokenizeRule] throws when, and only when, a part of the rule has a
    quote in front and holds no lower-case letter. *)
Theorem tokenizeRule_throws_iff (rule : string) :
  returns (tokenizeRule rule) = false
  <-> exists parts part,
        rule_parts rule = Some parts /\ In part parts
        /\ starts_with_quote part = true /\ lower_runs part = [].
Proof.
  unfold tokenizeRule.
  destruct (rule_parts rule) as [parts|].
  2:{ split; [discriminate|]. intros (ps & p & H & _). discriminate. }
  assert (H : returns (parts_tokens parts) = false
              <-> exists part, In part parts /\ starts_with_quote part = true
                               /\ lower_runs part = []).
  { induction parts as [|p parts IH]; cbn [parts_tokens].
    - split; [discriminate|]. intros (x & [] & _).
    - unfold bind. destruct (part_tokens p) as [ts|] eqn:E.
      + destruct (parts_tokens parts) as [more|] eqn:E'.
        * split; [discriminate|]. intros (x & [<-|Hin] & Hq & Hl).
          -- exfalso. destruct p as [|c p]; [discriminate|].
             cbn [part_tokens starts_with_quote] in *. rewrite Hq in E.
             unfold part_words in E. rewrite Hl in E. discriminate.
          -- apply (proj2 IH). eauto.
        * split; [|reflexivity]. intros _.
          destruct (proj1 IH eq_refl) as (x & Hin & Hx).
          exists x. split; [now right|exact Hx].
      + split; [|reflexivity]. intros _. exists p. split; [now left|].
        destruct p as [|c p]; [discriminate|].
        cbn [part_tokens starts_with_quote] in *.
        destruct (Ascii.eqb c quote); [|discriminate].
        split; [reflexivity|]. unfold part_words, match_result in E.
        destruct (lower_runs (String c p)); [reflexivity|discriminate]. }
  rewrite H. split.
  - intros (p & Hp). exists parts, p. now split.
  - intros (ps & p & [= <-] & Hp). now exists p.
Qed.

Lemma tokenizeRule_throws_iff_witness :
  returns (tokenizeRule (quoted "UP" ++ " single")) = false.
Proof.
  apply (proj2 (tokenizeRule_throws_iff (quoted "UP" ++ " single"))).
  exists [quoted "UP"; "single"], (quoted "UP").
  conjuncts; try by_evaluation. now left.
Defined.

(* ================================================================= *)
(** ** The characters of the normalized words *)

Lemma all_chars_trimStart (p : ascii -> bool) (s : string) :
  all_chars p s = true -> all_chars p (trimStart s) = true.
Proof.
  induction s as [|c s IH]; cbn [trimStart]; [auto|].
  destruct (is_space c); [|auto].
  cbn [all_chars]. intro H. apply andb_prop in H as [_ H]. auto.
Qed.

Lemma all_chars_strip_prefix (p : ascii -> bool) (a : string) :
  forall s r, strip_prefix a s = Some r ->
              all_chars p s = true -> all_chars p r = true.
Proof.
  induction a as [|x a IH]; intros s r; cbn [strip_prefix].
  - now intros [= ->].
  - destruct s as [|y s]; [discriminate|].
    destruct (Ascii.eqb x y); [|discriminate].
    intros H Hs. cbn [all_chars] in Hs. apply andb_prop in Hs as [_ Hs].
    eauto.
Qed.

Lemma all_chars_skip_spaces1 (p : ascii -> bool) (s r : string) :
  skip_spaces1 s = Some r -> all_chars p s = true -> all_chars p r = true.
Proof.
  destruct s as [|c s]; cbn [skip_spaces1]; [discriminate|].
  destruct (is_space c); [|discriminate].
  intros [= <-] H. cbn [all_chars] in H. apply andb_prop in H as [_ H].
  now apply all_chars_trimStart.
Qed.

Lemma all_chars_match_article (p : ascii -> bool) (s r : string) :
  match_article s = Some r -> all_chars p s = true -> all_chars p r = true.
Proof.
  unfold match_article.
  destruct (skip_spaces1 s) as [r1|] eqn:E1; [|discriminate].
  intros H Hs. pose proof (all_chars_skip_spaces1 p _ _ E1 Hs) as H1.
  clear E1 Hs. induction ARTICLES as [|a alts IH]; cbn [match_alternatives] in H;
    [discriminate|].
  destruct (strip_prefix a r1) as [r2|] eqn:E2; [|auto].
  destruct (skip_spaces1 r2) as [r3|] eqn:E3; [|auto].
  injection H as <-.
  eapply all_chars_skip_spaces1; [exact E3|].
  eapply all_chars_strip_prefix; eauto.
Qed.

Lemma all_chars_replace_articles (p : ascii -> bool) :
  p " "%char = true ->
  forall fuel s,
    all_chars p s = true -> all_chars p (replace_articles_from fuel s) = true.
Proof.
  intro Hsp. induction fuel as [|fuel IH]; intros s Hs; [exact Hs|].
  destruct s as [|c s]; [reflexivity|]. cbn [replace_articles_from].
  destruct (match_article (String c s)) as [r|] eqn:E.
  - cbn [all_chars]. rewrite Hsp.
    apply IH. eapply all_chars_match_article; eauto.
  - cbn [all_chars] in Hs |- *. apply andb_prop in Hs as [Hc Hs].
    now rewrite Hc, IH.
Qed.

Lemma all_chars_collapse (p : ascii -> bool) (s : string) :
  p " "%char = true ->
  all_chars p s = true -> all_chars p (collapse_spaces s) = true.
Proof.
  intro Hsp. induction s as [|c s IH]; [auto|].
  cbn [all_chars]. intro H. apply andb_prop in H as [Hc Hs].
  cbn [collapse_spaces]. destruct (is_space c).
  - destruct s as [|d s]; [cbn; now rewrite Hsp|].
    destruct (is_space d); [auto|]. cbn [all_chars]. rewrite Hsp. auto.
  - cbn [all_chars]. rewrite Hc. auto.
Qed.

Lemma all_chars_split (p : ascii -> bool) (s : string) :
  all_chars p s = true -> forallb (all_chars p) (split_space s) = true.
Proof.
  induction s as [|c s IH]; [reflexivity|].
  cbn [all_chars]. intro H. apply andb_prop in H as [Hc Hs].
  specialize (IH Hs). cbn [split_space].
  destruct (Ascii.eqb c " "); [cbn; exact IH|].
  destruct (split_space s) as [|w ws]; [cbn; now rewrite Hc|].
  cbn [forallb all_chars] in IH |- *. now rewrite Hc.
Qed.

Lemma collapse_plain_spaces (s : string) :
  all_chars plain_space (collapse_spaces s) = true.
Proof.
  induction s as [|c s IH]; [reflexivity|].
  cbn [collapse_spaces]. destruct (is_space c) eqn:Hc.
  - destruct s as [|d s]; [reflexivity|].
    destruct (is_space d); [exact IH|]. cbn [all_chars]. now rewrite IH.
  - cbn [all_chars]. unfold plain_space at 1. now rewrite Hc, IH.
Qed.

Lemma split_no_space (s : string) :
  all_chars plain_space s = true ->
  forallb (all_chars (fun c => negb (is_space c))) (split_space s) = true.
Proof.
  induction s as [|c s IH]; [reflexivity|].
  cbn [all_chars]. intro H. apply andb_prop in H as [Hc Hs].
  specialize (IH Hs). cbn [split_space].
  destruct (Ascii.eqb c " ") eqn:Esp; [cbn; exact IH|].
  unfold plain_space in Hc. rewrite Esp, orb_false_r in Hc.
  destruct (split_space s) as [|w ws]; [cbn; now rewrite Hc|].
  cbn [forallb all_chars] in IH |- *. now rewrite Hc.
Qed.

Lemma lower_char_lowered (c : ascii) : lowered (lower_char c) = true.
Proof. destruct c as [[] [] [] [] [] [] [] []]; reflexivity. Qed.

Lemma toLowerCase_lowered (s : string) :
  all_chars lowered (toLowerCase s) = true.
Proof.
  induction s as [|c s IH]; [reflexivity|].
  cbn [toLowerCase all_chars]. now rewrite lower_char_lowered, IH.
Qed.

Lemma lowered_toLowerCase (s : string) :
  all_chars lowered s = true -> toLowerCase s = s.
Proof.
  induction s as [|c s IH]; [reflexivity|].
  cbn [all_chars toLowerCase]. intro H. apply andb_prop in H as [Hc Hs].
  apply Ascii.eqb_eq in Hc. now rewrite Hc, IH.
Qed.

Lemma tokenizeInputString_plain (str : string) :
  forallb (all_chars word_char) (tokenizeInputString str) = true
  /\ (tokenizeInputString str = [""]
      \/ forallb plain_word (tokenizeInputString str) = true).
Proof.
  assert (Hchars : forallb (all_chars word_char) (tokenizeInputString str)
                   = true).
  { unfold tokenizeInputString, replace_articles.
    set (s := replace_articles_from _ _).
    assert (Hlow : all_chars lowered s = true).
    { apply all_chars_replace_articles; [reflexivity|].
      apply toLowerCase_lowered. }
    pose proof (all_chars_split lowered _
                  (all_chars_collapse lowered s eq_refl Hlow)) as H1.
    pose proof (split_no_space _ (collapse_plain_spaces s)) as H2.
    revert H1 H2. generalize (split_space (collapse_spaces s)).
    induction l as [|w ws IH]; [reflexivity|].
    cbn [forallb]. intros H1 H2.
    apply andb_prop in H1 as [Hw1 Hws1]. apply andb_prop in H2 as [Hw2 Hws2].
    rewrite (IH Hws1 Hws2), andb_true_r.
    clear - Hw1 Hw2. induction w as [|c w IHw]; [reflexivity|].
    cbn [all_chars] in *. apply andb_prop in Hw1 as [Hc1 Hw1].
    apply andb_prop in Hw2 as [Hc2 Hw2].
    unfold word_char at 1. now rewrite Hc1, Hc2, IHw. }
  split; [exact Hchars|].
  destruct (tokenizeInputString_words str) as [E|Hne]; [now left|].
  right. revert Hchars Hne. generalize (tokenizeInputString str).
  induction l as [|w ws IH]; [reflexivity|].
  cbn [forallb]. intros H Hne. apply andb_prop in H as [Hw Hws].
  inversion Hne as [|? ? Hw0 Hws0]; subst.
  rewrite (IH Hws Hws0), andb_true_r. unfold plain_word. rewrite Hw.
  destruct (String.eqb_spec w ""); [contradiction|reflexivity].
Qed.

(** X14. Whatever the input, no word of the normalized input holds white
    space, every word is left alone by [toLowerCase], and the words are
    not empty unless the result is the one empty word. *)
Theorem normalized_words_plain (str : string) :
  forallb (all_chars word_char) (tokenizeInputString str) = true
  /\ (tokenizeInputString str = [""]
      \/ forallb plain_word (tokenizeInputString str) = true).
Proof. apply tokenizeInputString_plain. Qed.

(* ================================================================= *)
(** ** Case and surrounding white space do not matter *)

Lemma toLowerCase_idempotent (s : string) :
  toLowerCase (toLowerCase s) = toLowerCase s.
Proof. apply lowered_toLowerCase, toLowerCase_lowered. Qed.

Lemma trimStart_toLowerCase (s : string) :
  trimStart (toLowerCase s) = toLowerCase (trimStart s).
Proof.
  induction s as [|c s IH]; [reflexivity|].
  cbn [toLowerCase trimStart]. rewrite lower_char_space.
  destruct (is_space c); [exact IH|reflexivity].
Qed.

Lemma trimEnd_toLowerCase (s : string) :
  trimEnd (toLowerCase s) = toLowerCase (trimEnd s).
Proof.
  induction s as [|c s IH]; [reflexivity|].
  cbn [toLowerCase trimEnd]. rewrite IH, lower_char_space.
  destruct (trimEnd s); cbn [toLowerCase]; [|reflexivity].
  destruct (is_space c); reflexivity.
Qed.

Lemma trim_toLowerCase (s : string) :
  trim (toLowerCase s) = toLowerCase (trim s).
Proof. unfold trim. now rewrite trimStart_toLowerCase, trimEnd_toLowerCase. Qed.

(** X15. The case of the letters of the input does not matter: an input
    and its lower-case form are normalized to the same words. *)
Theorem tokenizeInputString_case (str : string) :
  tokenizeInputString (toLowerCase str) = tokenizeInputString str.
Proof.
  unfold tokenizeInputString.
  now rewrite trim_toLowerCase, toLowerCase_idempotent.
Qed.

Lemma trimStart_blank_app (a s : string) :
  all_chars is_space a = true -> trimStart (a ++ s) = trimStart s.
Proof.
  induction a as [|c a IH]; [reflexivity|].
  cbn [all_chars String.append trimStart]. intro H.
  apply andb_prop in H as [Hc Ha]. rewrite Hc. auto.
Qed.

Lemma trimEnd_blank (b : string) :
  all_chars is_space b = true -> trimEnd b = "".
Proof.
  induction b as [|c b IH]; [reflexivity|].
  cbn [all_chars trimEnd]. intro H. apply andb_prop in H as [Hc Hb].
  now rewrite (IH Hb), Hc.
Qed.

Lemma trimEnd_app_blank (s b : string) :
  all_chars is_space b = true -> trimEnd (s ++ b) = trimEnd s.
Proof.
  intro Hb. induction s as [|c s IH]; cbn [String.append trimEnd].
  - now apply trimEnd_blank.
  - now rewrite IH.
Qed.

Lemma trimStart_app_blank (s b : string) :
  all_chars is_space b = true ->
  trimEnd (trimStart (s ++ b)) = trimEnd (trimStart s).
Proof.
  intro Hb. induction s as [|c s IH]; cbn [String.append trimStart].
  - rewrite trimStart_blank by exact Hb. reflexivity.
  - destruct (is_space c); [exact IH|].
    change (String c (s ++ b))%string with (String c s ++ b)%string.
    now apply trimEnd_app_blank.
Qed.

(** X16. White space around the input does not matter. *)
Theorem tokenizeInputString_padding (before str after : string) :
  all_chars is_space before = true ->
  all_chars is_space after = true ->
  tokenizeInputString (before ++ str ++ after) = tokenizeInputString str.
Proof.
  intros Ha Hb. unfold tokenizeInputString, trim.
  now rewrite trimStart_blank_app, trimStart_app_blank.
Qed.

Lemma tokenizeInputString_padding_witness :
  tokenizeInputString ("  " ++ "pick up key" ++ " ")
  = tokenizeInputString "pick up key".
Proof.
  apply tokenizeInputString_padding; reflexivity.
Defined.

(* ================================================================= *)
(** ** Words joined by spaces *)

Lemma join_space_tail (w : string) (ws : list string) :
  join_space (w :: ws) = (w ++ tail_text ws)%string.
Proof.
  destruct ws as [|v ws]; [cbn; now rewrite append_nil_r|reflexivity].
Qed.

Lemma tail_text_cons (w : string) (ws : list string) :
  tail_text (w :: ws) = String " " (w ++ tail_text ws).
Proof. unfold tail_text at 1. now rewrite join_space_tail. Qed.

Lemma tail_text_shape (ws : list string) :
  tail_text ws = "" \/ exists r, tail_text ws = String " " r.
Proof. destruct ws; [now left|right; eexists; reflexivity]. Qed.

Lemma plain_word_chars (w : string) :
  plain_word w = true ->
  exists c r, w = String c r /\ is_space c = false
              /\ all_chars (fun c => negb (is_space c)) w = true
              /\ all_chars lowered w = true.
Proof.
  unfold plain_word. destruct w as [|c r]; [discriminate|].
  cbn [String.eqb negb andb]. intro H.
  assert (Hns : all_chars (fun c => negb (is_space c)) (String c r) = true).
  { apply (all_chars_weaken word_char); [|exact H].
    intros x Hx. unfold word_char in Hx. now apply andb_prop in Hx as [? _]. }
  assert (Hlow : all_chars lowered (String c r) = true).
  { apply (all_chars_weaken word_char); [|exact H].
    intros x Hx. unfold word_char in Hx. now apply andb_prop in Hx as [_ ?]. }
  exists c, r. repeat split; try assumption.
  cbn [all_chars] in Hns. apply andb_prop in Hns as [Hc _].
  now apply negb_true_iff in Hc.
Qed.

Lemma not_space_not_blank (c : ascii) :
  is_space c = false -> Ascii.eqb c " " = false.
Proof.
  intro H. destruct (Ascii.eqb_spec c " ") as [->|]; [discriminate|reflexivity].
Qed.

(** *** Trimming and lowering leave the text alone *)

Lemma trimStart_starts_id (s : string) :
  starts_nonspace s = true -> trimStart s = s.
Proof.
  destruct s as [|c s]; [discriminate|]. cbn. intro H.
  apply negb_true_iff in H. now rewrite H.
Qed.

Lemma trimEnd_ends_id (s : string) :
  ends_nonspace s = true -> trimEnd s = s.
Proof.
  induction s as [|c s IH]; [discriminate|].
  destruct s as [|d s].
  - cbn. intro H. apply negb_true_iff in H. now rewrite H.
  - intro H. specialize (IH H). cbn [trimEnd] in *. now rewrite IH.
Qed.

Lemma ends_nonspace_app (a b : string) :
  ends_nonspace b = true -> ends_nonspace (a ++ b) = true.
Proof.
  intro H. induction a as [|c a IH]; [exact H|].
  cbn [String.append]. now apply ends_nonspace_cons.
Qed.

Lemma ends_nonspace_word (w : string) :
  w <> "" -> all_chars (fun c => negb (is_space c)) w = true ->
  ends_nonspace w = true.
Proof.
  induction w as [|c w IH]; [contradiction|].
  cbn [all_chars]. intros _ H. apply andb_prop in H as [Hc Hw].
  destruct w as [|d w]; [exact Hc|].
  apply ends_nonspace_cons, IH; [discriminate|exact Hw].
Qed.

Lemma join_space_ends (ws : list string) :
  ws <> [] -> forallb plain_word ws = true ->
  ends_nonspace (join_space ws) = true.
Proof.
  induction ws as [|w ws IH]; [contradiction|].
  intros _ H. cbn [forallb] in H. apply andb_prop in H as [Hw Hws].
  destruct (plain_word_chars w Hw) as (c & r & -> & _ & Hns & _).
  destruct ws as [|v ws].
  - cbn [join_space]. apply ends_nonspace_word; [discriminate|exact Hns].
  - rewrite join_space_tail. apply ends_nonspace_app.
    unfold tail_text. apply ends_nonspace_cons, IH; [discriminate|exact Hws].
Qed.

Lemma join_space_starts (w : string) (ws : list string) :
  plain_word w = true -> starts_nonspace (join_space (w :: ws)) = true.
Proof.
  intro Hw. destruct (plain_word_chars w Hw) as (c & r & -> & Hc & _).
  rewrite join_space_tail. cbn. now rewrite Hc.
Qed.

Lemma join_space_lowered (ws : list string) :
  forallb plain_word ws = true -> all_chars lowered (join_space ws) = true.
Proof.
  induction ws as [|w ws IH]; [reflexivity|].
  intro H. cbn [forallb] in H. apply andb_prop in H as [Hw Hws].
  destruct (plain_word_chars w Hw) as (c & r & E & _ & _ & Hlow).
  rewrite join_space_tail, all_chars_append, Hlow.
  destruct ws as [|v ws]; [reflexivity|].
  unfold tail_text. cbn [all_chars andb]. rewrite (IH Hws). reflexivity.
Qed.

(** *** Collapsing and splitting give the words back *)

Lemma collapse_word (w rest : string) :
  all_chars (fun c => negb (is_space c)) w = true ->
  collapse_spaces (w ++ rest) = (w ++ collapse_spaces rest)%string.
Proof.
  induction w as [|c w IH]; [reflexivity|].
  cbn [all_chars String.append collapse_spaces]. intro H.
  apply andb_prop in H as [Hc Hw]. apply negb_true_iff in Hc.
  now rewrite Hc, IH.
Qed.

Lemma collapse_join (ws : list string) :
  forallb plain_word ws = true ->
  collapse_spaces (join_space ws) = join_space ws.
Proof.
  induction ws as [|w ws IH]; [reflexivity|].
  intro H. cbn [forallb] in H. apply andb_prop in H as [Hw Hws].
  destruct (plain_word_chars w Hw) as (c & r & E & _ & Hns & _).
  rewrite join_space_tail, collapse_word by exact Hns. f_equal.
  destruct ws as [|v ws]; [reflexivity|].
  specialize (IH Hws). cbn [forallb] in Hws.
  apply andb_prop in Hws as [Hv _].
  destruct (plain_word_chars v Hv) as (d & r' & Ev & Hd & _).
  unfold tail_text. rewrite join_space_tail in IH |- *. rewrite Ev in IH |- *.
  cbn [String.append] in IH |- *. cbn [collapse_spaces].
  change (is_space " ") with true. cbv iota. rewrite Hd.
  f_equal. cbn [collapse_spaces] in IH. rewrite Hd in IH. exact IH.
Qed.

Lemma split_word (w rest : string) :
  w <> "" -> all_chars (fun c => negb (is_space c)) w = true ->
  split_space (w ++ String " " rest) = w :: split_space rest.
Proof.
  induction w as [|c w IH]; [contradiction|].
  cbn [all_chars]. intros _ H. apply andb_prop in H as [Hc Hw].
  apply negb_true_iff in Hc. apply not_space_not_blank in Hc.
  cbn [String.append split_space]. rewrite Hc.
  destruct w as [|d w]; [reflexivity|].
  rewrite IH by (discriminate || assumption). reflexivity.
Qed.

Lemma split_last_word (w : string) :
  all_chars (fun c => negb (is_space c)) w = true -> split_space w = [w].
Proof.
  induction w as [|c w IH]; [reflexivity|].
  cbn [all_chars]. intro H. apply andb_prop in H as [Hc Hw].
  apply negb_true_iff in Hc. apply not_space_not_blank in Hc.
  cbn [split_space]. now rewrite Hc, (IH Hw).
Qed.

Lemma split_join (ws : list string) :
  ws <> [] -> forallb plain_word ws = true ->
  split_space (join_space ws) = ws.
Proof.
  induction ws as [|w ws IH]; [contradiction|].
  intros _ H. cbn [forallb] in H. apply andb_prop in H as [Hw Hws].
  destruct (plain_word_chars w Hw) as (c & r & E & _ & Hns & _).
  destruct ws as [|v ws].
  - cbn [join_space]. now apply split_last_word.
  - rewrite join_space_tail. unfold tail_text.
    rewrite split_word; [|rewrite E; discriminate|exact Hns].
    rewrite IH; [reflexivity|discriminate|exact Hws].
Qed.

(** *** Where the article pattern matches *)

Lemma replace_no_match :
  forall fuel s, no_article_match s = true -> replace_articles_from fuel s = s.
Proof.
  induction fuel as [|fuel IH]; intros s H; [reflexivity|].
  destruct s as [|c s]; [reflexivity|].
  cbn [no_article_match] in H. cbn [replace_articles_from].
  destruct (match_article (String c s)); [discriminate|]. now rewrite IH.
Qed.

Lemma match_article_nonspace (c : ascii) (s : string) :
  is_space c = false -> match_article (String c s) = None.
Proof. intro H. unfold match_article, skip_spaces1. now rewrite H. Qed.

Lemma no_article_match_word (w rest : string) :
  all_chars (fun c => negb (is_space c)) w = true ->
  no_article_match (w ++ rest) = no_article_match rest.
Proof.
  induction w as [|c w IH]; [reflexivity|].
  cbn [all_chars]. intro H. apply andb_prop in H as [Hc Hw].
  apply negb_true_iff in Hc.
  cbn [String.append no_article_match].
  rewrite (match_article_nonspace _ _ Hc). auto.
Qed.

(** An alternative that is followed by white space in a text that starts
    with a word is that word. *)
Lemma strip_prefix_word (a : string) :
  forall v rest r,
    all_chars (fun c => negb (is_space c)) a = true ->
    all_chars (fun c => negb (is_space c)) v = true ->
    rest = "" \/ (exists t, rest = String " " t) ->
    strip_prefix a (v ++ rest) = Some r ->
    skip_spaces1 r <> None ->
    v = a /\ r = rest /\ rest <> "".
Proof.
  induction a as [|x a IH]; intros v rest r Ha Hv Hrest; cbn [strip_prefix].
  - intros [= <-] Hskip. destruct v as [|y v].
    + repeat split. intros ->. now apply Hskip.
    + exfalso. apply Hskip. cbn [all_chars] in Hv.
      apply andb_prop in Hv as [Hy _]. apply negb_true_iff in Hy.
      cbn. now rewrite Hy.
  - cbn [all_chars] in Ha. apply andb_prop in Ha as [Hx Ha].
    apply negb_true_iff in Hx.
    destruct v as [|y v]; cbn [String.append].
    + destruct Hrest as [->|[t ->]]; [discriminate|].
      destruct (Ascii.eqb_spec x " ") as [->|]; [discriminate|discriminate].
    + cbn [all_chars] in Hv. apply andb_prop in Hv as [_ Hv].
      destruct (Ascii.eqb_spec x y) as [->|]; [|discriminate].
      intros H Hskip.
      destruct (IH v rest r Ha Hv Hrest H Hskip) as (-> & -> & Hne).
      now repeat split.
Qed.

Lemma match_alternatives_word (alts : list string) (v rest r : string) :
  forallb (all_chars (fun c => negb (is_space c))) alts = true ->
  all_chars (fun c => negb (is_space c)) v = true ->
  rest = "" \/ (exists t, rest = String " " t) ->
  match_alternatives alts (v ++ rest) = Some r ->
  In v alts /\ rest <> "" /\ skip_spaces1 rest = Some r.
Proof.
  intros Halts Hv Hrest.
  induction alts as [|a alts IH]; cbn [match_alternatives]; [discriminate|].
  cbn [forallb] in Halts. apply andb_prop in Halts as [Ha Halts].
  destruct (strip_prefix a (v ++ rest)) as [r1|] eqn:E1.
  - destruct (skip_spaces1 r1) as [r2|] eqn:E2.
    + intros [= <-].
      destruct (strip_prefix_word a v rest r1 Ha Hv Hrest E1) as (-> & -> & Hne).
      { rewrite E2. discriminate. }
      repeat split; [now left|exact Hne|exact E2].
    + intro H. destruct (IH Halts H) as (Hin & Hne & Hs).
      repeat split; [now right|exact Hne|exact Hs].
  - intro H. destruct (IH Halts H) as (Hin & Hne & Hs).
    repeat split; [now right|exact Hne|exact Hs].
Qed.

Lemma is_article_In (w : string) : is_article w = true <-> In w ARTICLES.
Proof.
  unfold is_article. rewrite existsb_exists. split.
  - intros (x & Hin & Heq). apply String.eqb_eq in Heq. now subst.
  - intro H. exists w. split; [exact H|apply String.eqb_refl].
Qed.

(** In front of a word that is no article, or that ends the text, the
    pattern does not match. *)
Lemma match_article_other_word (v rest : string) :
  plain_word v = true ->
  rest = "" \/ (exists t, rest = String " " t) ->
  rest = "" \/ is_article v = false ->
  match_article (String " " (v ++ rest)) = None.
Proof.
  intros Hv Hrest Hnot.
  destruct (plain_word_chars v Hv) as (c & r & E & Hc & Hns & _).
  unfold match_article. cbn [skip_spaces1].
  change (is_space " ") with true. cbv iota.
  rewrite trimStart_starts_id by (rewrite E; cbn; now rewrite Hc).
  destruct (match_alternatives ARTICLES (v ++ rest)) as [r1|] eqn:Em;
    [|reflexivity].
  exfalso.
  destruct (match_alternatives_word ARTICLES v rest r1 eq_refl Hns Hrest Em)
    as (Hin & Hne & _).
  destruct Hnot as [->|Hnot]; [now apply Hne|].
  apply is_article_In in Hin. congruence.
Qed.

Lemma no_article_match_tail (ws : list string) :
  forallb plain_word ws = true ->
  forallb (fun w => negb (is_article w)) (removelast ws) = true ->
  no_article_match (tail_text ws) = true.
Proof.
  induction ws as [|v ws IH]; [reflexivity|].
  intros H Hart. cbn [forallb] in H. apply andb_prop in H as [Hv Hws].
  destruct (plain_word_chars v Hv) as (c & r & E & _ & Hns & _).
  rewrite tail_text_cons. cbn [no_article_match].
  rewrite match_article_other_word.
  - rewrite no_article_match_word by exact Hns.
    apply IH; [exact Hws|].
    destruct ws as [|u ws]; [reflexivity|].
    cbn [removelast forallb] in Hart. now apply andb_prop in Hart as [_ ?].
  - exact Hv.
  - apply tail_text_shape.
  - destruct ws as [|u ws]; [now left|right].
    cbn [removelast forallb] in Hart. apply andb_prop in Hart as [Hart _].
    now apply negb_true_iff in Hart.
Qed.

Lemma no_article_match_join (ws : list string) :
  forallb plain_word ws = true -> no_inner_article ws = true ->
  no_article_match (join_space ws) = true.
Proof.
  destruct ws as [|w ws]; [reflexivity|].
  unfold no_inner_article. cbn [tl forallb].
  intros H Hart. apply andb_prop in H as [Hw Hws].
  destruct (plain_word_chars w Hw) as (c & r & E & _ & Hns & _).
  rewrite join_space_tail, no_article_match_word by exact Hns.
  now apply no_article_match_tail.
Qed.

Lemma join_normal_form (ws : list string) :
  ws <> [] -> forallb plain_word ws = true -> no_inner_article ws = true ->
  tokenizeInputString (join_space ws) = ws.
Proof.
  intros Hne Hws Hart. unfold tokenizeInputString, trim, replace_articles.
  destruct ws as [|w ws]; [contradiction|].
  assert (Hw : plain_word w = true)
    by (cbn [forallb] in Hws; now apply andb_prop in Hws as [? _]).
  rewrite trimStart_starts_id by now apply join_space_starts.
  rewrite trimEnd_ends_id by now apply join_space_ends.
  rewrite lowered_toLowerCase by now apply join_space_lowered.
  rewrite replace_no_match by now apply no_article_match_join.
  rewrite collapse_join by exact Hws.
  now apply split_join.
Qed.

(** X17. Words that are not empty, hold no white space and no upper-case
    letter, joined by single spaces, are normalized to themselves, as
    long as no word but the first and the last is an article. *)
Theorem tokenizeInputString_join (ws : list string) :
  ws <> [] -> forallb plain_word ws = true -> no_inner_article ws = true ->
  tokenizeInputString (join_space ws) = ws.
Proof. apply join_normal_form. Qed.

(** An article in the first place and one in the last place are kept. *)
Lemma tokenizeInputString_join_witness :
  tokenizeInputString (join_space ["the"; "old"; "key"; "an"])
  = ["the"; "old"; "key"; "an"].
Proof.
  apply tokenizeInputString_join; [discriminate|reflexivity|reflexivity].
Defined.

(** *** An article between two words *)

Lemma replace_articles_keep (c : ascii) (s : string) :
  match_article (String c s) = None ->
  replace_articles (String c s) = String c (replace_articles s).
Proof.
  intro H. unfold replace_articles. cbn [String.length replace_articles_from].
  now rewrite H.
Qed.

Lemma replace_articles_match (c : ascii) (s r : string) :
  match_article (String c s) = Some r ->
  replace_articles (String c s) = String " " (replace_articles r).
Proof.
  intro H. unfold replace_articles. cbn [String.length replace_articles_from].
  rewrite H. f_equal. apply match_article_length in H. cbn in H.
  apply replace_articles_from_enough; lia.
Qed.

Lemma replace_articles_word (w rest : string) :
  all_chars (fun c => negb (is_space c)) w = true ->
  replace_articles (w ++ rest) = (w ++ replace_articles rest)%string.
Proof.
  induction w as [|c w IH]; [reflexivity|].
  cbn [all_chars]. intro H. apply andb_prop in H as [Hc Hw].
  apply negb_true_iff in Hc. cbn [String.append].
  rewrite replace_articles_keep by now apply match_article_nonspace.
  now rewrite IH.
Qed.

Lemma skip_spaces1_blank_word (c : ascii) (s : string) :
  is_space c = false ->
  skip_spaces1 (String " " (String c s)) = Some (String c s).
Proof.
  intro Hc. cbn [skip_spaces1]. change (is_space " ") with true. cbv iota.
  cbn [trimStart]. now rewrite Hc.
Qed.

Lemma skip_spaces1_letter (c : ascii) (s : string) :
  is_space c = false -> skip_spaces1 (String c s) = None.
Proof. intro Hc. cbn [skip_spaces1]. now rewrite Hc. Qed.

Lemma match_article_article (a v rest : string) :
  In a ARTICLES -> plain_word v = true ->
  match_article (String " " (a ++ String " " (v ++ rest)))
  = Some (v ++ rest)%string.
Proof.
  intros Ha Hv. destruct (plain_word_chars v Hv) as (c & r & -> & Hc & _).
  unfold match_article, ARTICLES in *.
  cbn [In] in Ha. destruct Ha as [<-|[<-|[<-|[]]]];
    cbn [String.append];
    rewrite skip_spaces1_blank_word by reflexivity;
    cbn [match_alternatives strip_prefix Ascii.eqb Bool.eqb];
    rewrite ?(skip_spaces1_letter "n") by reflexivity;
    cbn [match_alternatives strip_prefix Ascii.eqb Bool.eqb];
    now rewrite (skip_spaces1_blank_word c) by exact Hc.
Qed.

Lemma replace_articles_removes (pre post : list string) (a : string) :
  pre <> [] -> post <> [] ->
  forallb plain_word pre = true -> forallb plain_word post = true ->
  forallb (fun w => negb (is_article w)) (pre ++ post) = true ->
  In a ARTICLES ->
  replace_articles (join_space (pre ++ a :: post)) = join_space (pre ++ post).
Proof.
  intros Hpre Hpost Hwpre Hwpost Hart Ha.
  assert (Hjoin : replace_articles (join_space post) = join_space post).
  { apply replace_no_match, no_article_match_join; [exact Hwpost|].
    unfold no_inner_article. rewrite forallb_app in Hart.
    apply andb_prop in Hart as [_ Hart].
    destruct post as [|p post]; [reflexivity|]. cbn [tl].
    cbn [forallb] in Hart. apply andb_prop in Hart as [_ Hart].
    clear - Hart. induction post as [|q post IH]; [reflexivity|].
    cbn [forallb] in Hart. apply andb_prop in Hart as [Hq Hart].
    destruct post as [|q' post]; [reflexivity|].
    cbn [removelast forallb]. rewrite Hq. exact (IH Hart). }
  induction pre as [|w pre IH]; [contradiction|]. clear Hpre.
  cbn [forallb] in Hwpre. apply andb_prop in Hwpre as [Hw Hwpre].
  destruct (plain_word_chars w Hw) as (c & r & E & _ & Hns & _).
  cbn [app]. rewrite !join_space_tail, replace_articles_word by exact Hns.
  f_equal. destruct pre as [|v pre].
  - cbn [app]. destruct post as [|p post]; [contradiction|].
    rewrite !tail_text_cons.
    assert (Hp : plain_word p = true)
      by (cbn [forallb] in Hwpost; now apply andb_prop in Hwpost as [? _]).
    rewrite (replace_articles_match _ _ _ (match_article_article a p _ Ha Hp)).
    rewrite <- join_space_tail, Hjoin, join_space_tail. reflexivity.
  - cbn [app] in *. rewrite !tail_text_cons.
    cbn [forallb] in Hart. apply andb_prop in Hart as [_ Hart].
    assert (Hv : plain_word v = true)
      by (cbn [forallb] in Hwpre; now apply andb_prop in Hwpre as [? _]).
    rewrite replace_articles_keep.
    + f_equal. rewrite <- !join_space_tail.
      apply IH; [discriminate|exact Hwpre|exact Hart].
    + apply match_article_other_word; [exact Hv|apply tail_text_shape|].
      right. cbn [forallb] in Hart. apply andb_prop in Hart as [Hv' _].
      now apply negb_true_iff in Hv'.
Qed.

(** X18. An article that stands between words that are no articles is
    removed: the words in front of it and the words behind it are what
    is left. *)
Theorem tokenizeInputString_drops_article (pre post : list string)
    (a : string) :
  pre <> [] -> post <> [] ->
  forallb plain_word pre = true -> forallb plain_word post = true ->
  forallb (fun w => negb (is_article w)) (pre ++ post) = true ->
  In a ARTICLES ->
  tokenizeInputString (join_space (pre ++ a :: post)) = pre ++ post.
Proof.
  intros Hpre Hpost Hwpre Hwpost Hart Ha.
  assert (Hwa : plain_word a = true).
  { cbn in Ha. destruct Ha as [<-|[<-|[<-|[]]]]; reflexivity. }
  assert (Hall : forallb plain_word (pre ++ a :: post) = true).
  { rewrite forallb_app. cbn [forallb]. now rewrite Hwpre, Hwa, Hwpost. }
  assert (Hboth : forallb plain_word (pre ++ post) = true).
  { rewrite forallb_app. now rewrite Hwpre, Hwpost. }
  unfold tokenizeInputString, trim.
  destruct pre as [|w pre]; [contradiction|].
  assert (Hw : plain_word w = true)
    by (cbn [forallb] in Hwpre; now apply andb_prop in Hwpre as [? _]).
  rewrite trimStart_starts_id by (cbn [app]; now apply join_space_starts).
  rewrite trimEnd_ends_id by (apply join_space_ends; [discriminate|exact Hall]).
  rewrite lowered_toLowerCase by now apply join_space_lowered.
  rewrite replace_articles_removes by assumption.
  rewrite collapse_join by exact Hboth.
  apply split_join; [discriminate|exact Hboth].
Qed.

Lemma tokenizeInputString_drops_article_witness :
  tokenizeInputString (join_space (["pick"; "up"] ++ "the" :: ["key"]))
  = ["pick"; "up"] ++ ["key"].
Proof.
  apply tokenizeInputString_drops_article;
    [discriminate|discriminate|reflexivity|reflexivity|reflexivity|].
  right; right; left; reflexivity.
Defined.

(** X19. Normalizing is idempotent on every input whose normalized words
    have no article but in the first or the last place. *)
Theorem normalize_idempotent_without_inner_article (str : string) :
  no_inner_article (tokenizeInputString str) = true ->
  tokenizeInputString (join_space (tokenizeInputString str))
  = tokenizeInputString str.
Proof.
  intro Hart.
  destruct (proj2 (tokenizeInputString_plain str)) as [E|Hws].
  - rewrite E. reflexivity.
  - apply join_normal_form;
      [apply tokenizeInputString_not_nil|exact Hws|exact Hart].
Qed.

Lemma normalize_idempotent_without_inner_article_witness :
  tokenizeInputString
    (join_space (tokenizeInputString "  Pick UP the  old key "))
  = tokenizeInputString "  Pick UP the  old key ".
Proof.
  apply normalize_idempotent_without_inner_article. reflexivity.
Defined.
